(** * Dwaparyug atlas: the WorldMap component

    A shallow embedding of [WorldMap.tsx]: the naming table
    [dwaparaLookup], the enrichment transform [enrichDataset], the load
    effect [loadDataset] with its [isSubscribed] flag, the view selection
    of [WorldMap], and the per-feature binder [handleEachFeature] with the
    two hover handlers.

    The first part works on JSON data as values.  The last part
    ([Module Store]) runs the same transform over a store of objects with
    identities, to speak about what is freshly allocated and what is
    shared between the input and the output. *)

From Stdlib Require Import PrimFloat.
From stdpp Require Import gmap strings list fin_maps.

Local Open Scope string_scope.

(* A decimal literal such as 0.38 denotes the nearest double, in the
   source as here. *)
Set Warnings "-inexact-float,-register-all".

(** ** JavaScript values

    What [response.json()] can put in a property: [null], a boolean, a
    number (an IEEE double), a string, or a nested object or array.  The
    component never looks inside a nested object or array, it only copies
    the reference, so such a value is its identity [VRef l].  [undefined]
    is not a JSON value: a property that reads [undefined] is a missing
    key, [None] on lookup. *)

Definition loc := positive.

Inductive value :=
  | VNull
  | VBool (b : bool)
  | VNum (x : float)
  | VStr (s : string)
  | VRef (l : loc).

(** [a === b].  Numbers compare as IEEE doubles, references by identity. *)
Definition strict_equal (a b : value) : bool :=
  match a, b with
  | VNull, VNull => true
  | VBool x, VBool y => bool_decide (x = y)
  | VNum x, VNum y => PrimFloat.eqb x y
  | VStr s, VStr t => bool_decide (s = t)
  | VRef l, VRef k => bool_decide (l = k)
  | _, _ => false
  end.

(** [a ?? b]: the left operand unless it is [null] or [undefined]. *)
Definition nullish (o : option value) : bool :=
  match o with
  | None | Some VNull => true
  | Some _ => false
  end.

Definition coalesce (a b : option value) : option value :=
  if nullish a then b else a.

Infix "??" := coalesce (at level 45, left associativity).

(** A chain that ends in a literal is never [undefined]. *)
Definition or_literal (a : option value) (d : value) : value :=
  match a ?? Some d with
  | Some v => v
  | None => d
  end.

(** ** GeoJSON features

    A feature object is its [properties] member and all its other own
    members ([type], [geometry], [id], [bbox], ...).  [properties] is
    [None] when the member is [null] or missing; the source reads it only
    through [feature.properties?.X] and [...feature.properties], which
    treat both alike. *)

Record Feature := {
  properties : option (gmap string value);
  members : gmap string value
}.

Record FeatureCollection := {
  features : list Feature;
  extras : gmap string value
}.

(** [feature.properties?.key] *)
Definition prop (feature : Feature) (key : string) : option value :=
  properties feature ≫= (.!! key).

(** ** The naming table *)

Definition dwaparaEntries : list (string * string) := [
    ("India", "Bharata Khanda");
    ("Sri Lanka", "Lanka");
    ("Pakistan", "Gandhara");
    ("Afghanistan", "Kamboja");
    ("Bangladesh", "Vanga");
    ("Nepal", "Kirati Realm");
    ("Bhutan", "Druk Yul");
    ("China", "Mleccha Orient");
    ("Myanmar", "Suvannabhumi");
    ("Thailand", "Nagadipa");
    ("Laos", "Ravana-gahvara");
    ("Cambodia", "Kambuja Desa");
    ("Vietnam", "Uluka Province");
    ("Indonesia", "Dvipa Archipelago");
    ("Malaysia", "Surparaka Reach");
    ("Singapore", "Temasek Dvipa");
    ("Japan", "Yamato Isles");
    ("Mongolia", "Huna Steppe");
    ("Russia", "Uttara Kuru");
    ("Kazakhstan", "Saka Plateau");
    ("Uzbekistan", "Tushara Realm");
    ("Turkmenistan", "Parama Kamboja");
    ("Iran", "Parsava Kingdom");
    ("Iraq", "Madra Basin");
    ("Syria", "Aratta Frontier");
    ("Turkey", "Pahlava Reach");
    ("Egypt", "Misra Desh");
    ("Ethiopia", "Habesha Janapada");
    ("Somalia", "Barbarika Coast");
    ("Kenya", "Shakulya Plains");
    ("Tanzania", "Matanga Plateau");
    ("South Africa", "Hrasva Dwipa");
    ("United States of America", "Pushkara Continent");
    ("Canada", "Uttara Pushkara");
    ("Mexico", "Maya Khanda");
    ("Brazil", "Nila Varsha");
    ("Argentina", "Hemanta Varsha");
    ("Peru", "Garuda Andes");
    ("Chile", "Sarpa Valley");
    ("Bolivia", "Yaksha Highlands");
    ("Colombia", "Kartika Basin");
    ("Venezuela", "Bhaga Canopy");
    ("United Kingdom", "Svarnadvipa Isles");
    ("France", "Sindhuvisha Territory");
    ("Spain", "Nagavanshi Coast");
    ("Portugal", "Ratnakara Gate");
    ("Germany", "Daityan Foothold");
    ("Italy", "Vanara Peninsula");
    ("Greece", "Yavana Polis");
    ("Poland", "Kuru Outlands");
    ("Ukraine", "Sindhava Plains");
    ("Belarus", "Vasati Corridor");
    ("Norway", "Deva Fjords");
    ("Sweden", "Yaksha Tundra");
    ("Finland", "Marut Tundra");
    ("Iceland", "Shveta Dvipa");
    ("Greenland", "Airavata Glacier");
    ("Saudi Arabia", "Arabia Khanda");
    ("United Arab Emirates", "Ratna Port");
    ("Qatar", "Åšankha Harbor");
    ("Bahrain", "Nagadipa Pearl");
    ("Oman", "Sagara Gate");
    ("Yemen", "Sabha Coast");
    ("Israel", "Shurasena Corridor");
    ("Jordan", "Nishada Marches");
    ("Lebanon", "Vanara Ridge");
    ("Morocco", "Ketumala Coast");
    ("Algeria", "Ruru Expanse");
    ("Tunisia", "Sudarshana Bend");
    ("Libya", "Gandhara West");
    ("Sudan", "Kush Desh");
    ("South Sudan", "Shalya March");
    ("Chad", "Yaksha Sands");
    ("Niger", "Rishika Dunes");
    ("Mali", "Bhima Basin");
    ("Nigeria", "Anarta Delta");
    ("Ghana", "Kuruvarsha");
    ("Ivory Coast", "Duhkha Shore");
    ("Cameroon", "Rakshasa Wilds");
    ("Democratic Republic of the Congo", "Naga Rainforest");
    ("Republic of the Congo", "Naga Littoral");
    ("Angola", "Ketu Savannah");
    ("Namibia", "Pampa Estuary");
    ("Botswana", "Sattva Plains");
    ("Zimbabwe", "Shiva Plateau");
    ("Mozambique", "Sagara Estuary");
    ("Madagascar", "Mahodaya Isle");
    ("Australia", "Ajagara Continent");
    ("New Zealand", "Sura Isles");
    ("Papua New Guinea", "Yakshini Archipelago");
    ("Philippines", "Nagapattinam Isles");
    ("South Korea", "Agnivanshi Peninsula");
    ("North Korea", "Prachya March");
    ("Bhutan", "Druk Yul");
    ("Iceland", "Shveta Dvipa")
  ].

(** [new Map(entries)]: the entries are set in order, so for a key listed
    twice the later entry stays. *)
Definition Map_new (entries : list (string * string)) : gmap string string :=
  foldl (λ m e, <[e.1 := e.2]> m) ∅ entries.

Definition dwaparaLookup : gmap string string := Map_new dwaparaEntries.

(** [map.get(key)].  Every key of the table is a string, and a [Map]
    compares keys without conversion, so any other key is not found. *)
Definition Map_get (m : gmap string string) (key : value) : option value :=
  match key with
  | VStr s => VStr <$> m !! s
  | _ => None
  end.

(** ** enrichDataset *)

Definition modernName (feature : Feature) : value :=
  or_literal
    (prop feature "NAME_LONG" ?? prop feature "ADMIN" ?? prop feature "SOVEREIGNT")
    (VStr "Unknown Realm").

Definition dwaparaName (feature : Feature) : value :=
  or_literal (Map_get dwaparaLookup (modernName feature)) (modernName feature).

Definition enrichFeature (feature : Feature) : Feature :=
  {| properties :=
       Some (<["MODERN_NAME" := modernName feature]>
              (<["DWAPARA_NAME" := dwaparaName feature]>
                (default ∅ (properties feature))));
     members := members feature |}.

Definition enrichDataset (collection : FeatureCollection) : FeatureCollection :=
  {| features := enrichFeature <$> features collection;
     extras := extras collection |}.

(** The specification's reading of the name chain: the first candidate
    that is present and not [null]. *)
Fixpoint first_present (candidates : list (option value)) : option value :=
  match candidates with
  | [] => None
  | None :: rest | Some VNull :: rest => first_present rest
  | Some v :: _ => Some v
  end.

(** ** The load effect

    [useEffect] runs [loadDataset] once per mount.  The function stops at
    two [await]s; what the network answers at each is an event, and so is
    the effect's cleanup.  [WorldMapState] is the component's three
    [useState] cells, [Effect] is what one run of the effect closes over:
    its own [isSubscribed] and where [loadDataset] is waiting. *)

Record WorldMapState := {
  dataset : option FeatureCollection;
  error : option string;
  isMounted : bool
}.

Definition setDataset (d : FeatureCollection) (st : WorldMapState) : WorldMapState :=
  {| dataset := Some d; error := error st; isMounted := isMounted st |}.

Definition setError (message : string) (st : WorldMapState) : WorldMapState :=
  {| dataset := dataset st; error := Some message; isMounted := isMounted st |}.

Definition setIsMounted (b : bool) (st : WorldMapState) : WorldMapState :=
  {| dataset := dataset st; error := error st; isMounted := b |}.

(** What a [catch] clause can receive: an [Error] with its [message], or
    any other thrown value. *)
Inductive thrown :=
  | ErrorObject (message : string)
  | ThrownValue (v : value).

Record Response := {
  ok : bool;
  statusText : string
}.

Inductive Stage :=
  | AwaitFetch
  | AwaitJson
  | Finished.

Record Effect := {
  isSubscribed : bool;
  stage : Stage
}.

(** [FetchRejected]: [await fetch(...)] throws.  [FetchResolved]: it
    gives a response.  [JsonRejected]: the body cannot be made into a
    collection, [await response.json()] throws.  [JsonResolved]: the body
    is a collection.  [Cleanup]: the function the effect returned is
    called. *)
Inductive event :=
  | FetchRejected (err : thrown)
  | FetchResolved (response : Response)
  | JsonRejected (err : thrown)
  | JsonResolved (raw : FeatureCollection)
  | Cleanup.

Definition initialState : WorldMapState :=
  {| dataset := None; error := None; isMounted := false |}.

(** Both effects of the first commit: [setIsMounted(true)], and the start
    of [loadDataset] with a fresh flag. *)
Definition mount (st : WorldMapState) : WorldMapState * Effect :=
  (setIsMounted true st, {| isSubscribed := true; stage := AwaitFetch |}).

Definition errorMessage (err : thrown) : string :=
  match err with
  | ErrorObject message => message
  | ThrownValue _ => "Unknown error while loading dataset"
  end.

(** The [catch] block. *)
Definition catch (err : thrown) (st : WorldMapState) (fx : Effect) : WorldMapState :=
  if isSubscribed fx then setError (errorMessage err) st else st.

Definition finish (fx : Effect) : Effect :=
  {| isSubscribed := isSubscribed fx; stage := Finished |}.

Definition step (s : WorldMapState * Effect) (ev : event) : WorldMapState * Effect :=
  let (st, fx) := s in
  match ev, stage fx with
  | Cleanup, _ => (st, {| isSubscribed := false; stage := stage fx |})
  | FetchRejected err, AwaitFetch => (catch err st fx, finish fx)
  | FetchResolved response, AwaitFetch =>
      if ok response
      then (st, {| isSubscribed := isSubscribed fx; stage := AwaitJson |})
      else (catch (ErrorObject ("Failed to load dataset: " ++ statusText response)) st fx,
            finish fx)
  | JsonRejected err, AwaitJson => (catch err st fx, finish fx)
  | JsonResolved raw, AwaitJson =>
      (if isSubscribed fx then setDataset (enrichDataset raw) st else st, finish fx)
  | _, _ => s
  end.

Definition run (s : WorldMapState * Effect) (evs : list event) : WorldMapState * Effect :=
  foldl step s evs.

(** ** The view [WorldMap] returns *)

Inductive view :=
  | Initializing
  | ErrorView (message : string)
  | LoadingView
  | MapView (data : FeatureCollection).

(** [if (error)]: [null] and the empty string are falsy. *)
Definition truthy (s : option string) : bool :=
  match s with
  | Some "" | None => false
  | Some _ => true
  end.

Definition render (st : WorldMapState) : view :=
  if negb (isMounted st) then Initializing
  else if truthy (error st) then ErrorView (default "" (error st))
  else match dataset st with
       | None => LoadingView
       | Some d => MapView d
       end.

(** ** Path styles and the hover handlers

    A [PathOptions] object is a bag of options.  A decimal literal
    denotes the nearest double, as in the source. *)

Definition defaultStyle : gmap string value :=
  {[ "color" := VStr "#38bdf8";
     "weight" := VNum 1;
     "fillColor" := VStr "#0ea5e9";
     "fillOpacity" := VNum 0.22 ]}.

Definition hoverStyle : gmap string value :=
  <["fillOpacity" := VNum 0.38]> (<["weight" := VNum 2.5]> defaultStyle).

Definition featureStyle : gmap string value := defaultStyle.

(** The layers Leaflet's [L.GeoJSON] hands to [onEachFeature], and so
    the possible [event.target]s: a path ([L.Polyline], [L.Polygon]) with
    its options, a marker ([L.Marker]) with its options, or a feature
    group of such layers. *)
Inductive layer :=
  | Path (options : gmap string value)
  | Marker (options : gmap string value)
  | FeatureGroup (layers : list layer).

(** The geometry types of GeoJSON, as far as the choice of layer goes. *)
Inductive geometry :=
  | Point
  | MultiPoint (points : nat)
  | LineString
  | MultiLineString
  | Polygon
  | MultiPolygon
  | GeometryCollection (geometries : list geometry).

(** Leaflet's [geometryToLayer] without a [pointToLayer] option: a marker
    for a point, a path for lines and polygons, a group for the rest.
    [path_options] and [marker_options] are the options the new layers
    start with. *)
Fixpoint geometryToLayer (path_options marker_options : gmap string value)
    (g : geometry) : layer :=
  match g with
  | Point => Marker marker_options
  | MultiPoint points => FeatureGroup (replicate points (Marker marker_options))
  | LineString | MultiLineString | Polygon | MultiPolygon => Path path_options
  | GeometryCollection geometries =>
      FeatureGroup (geometryToLayer path_options marker_options <$> geometries)
  end.

(** [Path.setStyle(style)] assigns every option of [style] on the path
    and leaves its other options as they are. *)
Definition setOptions (style options : gmap string value) : gmap string value :=
  style ∪ options.

(** [if (layer.setStyle) layer.setStyle(style)]: what Leaflet does to
    style a layer of its own accord, and what [FeatureGroup.setStyle]
    does to each layer of the group.  A path has the method, a marker
    has not, a group passes the call on. *)
Fixpoint invoke_setStyle (style : gmap string value) (l : layer) : layer :=
  match l with
  | Path options => Path (setOptions style options)
  | Marker options => Marker options
  | FeatureGroup layers => FeatureGroup (invoke_setStyle style <$> layers)
  end.

(** [target.setStyle(style)] as the handlers call it, without a test
    for the method: on a marker [target.setStyle] is [undefined] and the
    call throws a TypeError, which is [None]. *)
Definition setStyle (style : gmap string value) (target : layer) : option layer :=
  match target with
  | Marker _ => None
  | _ => Some (invoke_setStyle style target)
  end.

Definition handleFeatureHover (target : layer) : option layer :=
  setStyle hoverStyle target.

Definition handleFeatureLeave (target : layer) : option layer :=
  setStyle featureStyle target.

(** The layer of a feature when [handleEachFeature] receives it:
    [L.GeoJSON] has built it from the geometry and has applied
    [style={() => featureStyle}] to it. *)
Definition featureLayer (path_options marker_options : gmap string value)
    (g : geometry) : layer :=
  invoke_setStyle featureStyle (geometryToLayer path_options marker_options g).

(** [layer.on({ mouseover: handleFeatureHover, mouseout: handleFeatureLeave })] *)
Inductive mouse := mouseover | mouseout.

Definition fire (target : layer) (ev : mouse) : option layer :=
  match ev with
  | mouseover => handleFeatureHover target
  | mouseout => handleFeatureLeave target
  end.

(** The layer after an event: a handler that throws has changed nothing,
    and later events are still delivered. *)
Definition after (target : layer) (ev : mouse) : layer :=
  default target (fire target ev).

(** ** handleEachFeature: the tooltip

    String conversion of a number or of an object is the engine's; the
    binder takes it as given. *)

Class Engine := {
  number_to_string : float → string;
  object_to_string : loc → string
}.

Section Tooltip.

Context `{Engine}.

Definition ToString (v : value) : string :=
  match v with
  | VNull => "null"
  | VBool true => "true"
  | VBool false => "false"
  | VNum x => number_to_string x
  | VStr s => s
  | VRef l => object_to_string l
  end.

(** [array.join(separator)]: a [null] element is joined as the empty string. *)
Definition join_element (v : value) : string :=
  match v with
  | VNull => ""
  | _ => ToString v
  end.

Fixpoint join (separator : string) (array : list value) : string :=
  match array with
  | [] => ""
  | [v] => join_element v
  | v :: rest => join_element v ++ separator ++ join separator rest
  end.

Definition newline : string := String (Ascii.ascii_of_nat 10) "".

Definition tooltipLines (feature : Feature) : list value :=
  let dwaparaName := or_literal (prop feature "DWAPARA_NAME") (VStr "Unnamed Dominion") in
  let modernName := or_literal (prop feature "MODERN_NAME") dwaparaName in
  if negb (strict_equal modernName dwaparaName)
  then [dwaparaName; VStr ("Modern: " ++ ToString modernName)]
  else [dwaparaName].

(** The text handed to [layer.bindTooltip]. *)
Definition handleEachFeature (feature : Feature) : string :=
  join newline (tooltipLines feature).

End Tooltip.

(** ** enrichDataset over a store of objects

    Objects and arrays live in a store and are named by their address, so
    that two references to one object are told apart from two equal
    objects.  An object literal and [Array.prototype.map] allocate; the
    spread [...x] copies the own properties of [x], values and references
    alike.  A computation is [None] when the data is not of the declared
    type [DwaparaFeatureCollection]. *)

Module Store.

Inductive object :=
  | Obj (fields : gmap string value)
  | Arr (elements : list value).

Definition M (A : Type) : Type := gmap loc object → option (A * gmap loc object).

Definition ret {A} (a : A) : M A := λ h, Some (a, h).

Definition bind {A B} (m : M A) (k : A → M B) : M B :=
  λ h, match m h with
       | Some (a, h') => k a h'
       | None => None
       end.

Definition lift {A} (o : option A) : M A :=
  λ h, match o with
       | Some a => Some (a, h)
       | None => None
       end.

Definition get : M (gmap loc object) := λ h, Some (h, h).

Declare Scope store_scope.
Delimit Scope store_scope with store.
Notation "'let*' x := m 'in' k" := (bind m (λ x, k))
  (at level 10, x name, m at level 100, k at level 200, only parsing) : store_scope.

(** A new object gets an address that is not in use. *)
Definition alloc (o : object) : M loc :=
  λ h, let l := fresh (dom h) in Some (l, <[l := o]> h).

Definition fields_at (h : gmap loc object) (l : loc) : option (gmap string value) :=
  match h !! l with
  | Some (Obj fields) => Some fields
  | _ => None
  end.

Definition elements_at (h : gmap loc object) (l : loc) : option (list value) :=
  match h !! l with
  | Some (Arr elements) => Some elements
  | _ => None
  end.

(** The feature an object with own properties [fields] stands for: its
    [properties] member is [null], missing, or a reference to a bag. *)
Definition view_feature (h : gmap loc object) (fields : gmap string value) : option Feature :=
  match fields !! "properties" with
  | None | Some VNull =>
      Some {| properties := None; members := delete "properties" fields |}
  | Some (VRef lp) =>
      bag ← fields_at h lp;
      Some {| properties := Some bag; members := delete "properties" fields |}
  | Some _ => None
  end.

Definition view_element (h : gmap loc object) (e : value) : option Feature :=
  match e with
  | VRef lf => fields_at h lf ≫= view_feature h
  | _ => None
  end.

Definition view_collection (h : gmap loc object) (collection : loc) : option FeatureCollection :=
  fields ← fields_at h collection;
  match fields !! "features" with
  | Some (VRef la) =>
      elements ← elements_at h la;
      fs ← mapM (view_element h) elements;
      Some {| features := fs; extras := delete "features" fields |}
  | _ => None
  end.

Local Open Scope store_scope.

(** The callback of [collection.features.map]. *)
Definition enrichFeature_st (element : value) : M value :=
  match element with
  | VRef lf =>
      let* h := get in
      let* fields := lift (fields_at h lf) in
      let* feature := lift (view_feature h fields) in
      let* lp := alloc (Obj (<["MODERN_NAME" := modernName feature]>
                              (<["DWAPARA_NAME" := dwaparaName feature]>
                                (default ∅ (properties feature))))) in
      let* lf' := alloc (Obj (<["properties" := VRef lp]> fields)) in
      ret (VRef lf')
  | _ => lift None
  end.

Fixpoint Array_map (callback : value → M value) (elements : list value) : M (list value) :=
  match elements with
  | [] => ret []
  | e :: rest =>
      let* e' := callback e in
      let* rest' := Array_map callback rest in
      ret (e' :: rest')
  end.

Definition enrichDataset_st (collection : loc) : M loc :=
  let* h := get in
  let* fields := lift (fields_at h collection) in
  match fields !! "features" with
  | Some (VRef la) =>
      let* elements := lift (elements_at h la) in
      let* elements' := Array_map enrichFeature_st elements in
      let* la' := alloc (Arr elements') in
      alloc (Obj (<["features" := VRef la']> fields))
  | _ => lift None
  end.

(** What one call of the callback leaves behind, read in the store [h]
    before [enrichDataset] and the store [h'] after it: the element [e]
    names a feature object of [h], and [e'] names an object and a property
    bag that [h] did not have, the object with the members of the old one
    and [properties] pointing to the new bag, the bag with the old
    properties and the two names. *)
Definition enriched_copy (h h' : gmap loc object) (e e' : value) : Prop :=
  ∃ lf fields feature lf' lp,
    e = VRef lf
    ∧ fields_at h lf = Some fields
    ∧ view_feature h fields = Some feature
    ∧ e' = VRef lf'
    ∧ (lf' ∉ dom h)
    ∧ (lp ∉ dom h)
    ∧ fields_at h' lf' = Some (<["properties" := VRef lp]> fields)
    ∧ fields_at h' lp =
        Some (<["MODERN_NAME" := modernName feature]>
               (<["DWAPARA_NAME" := dwaparaName feature]>
                 (default ∅ (properties feature)))).

(** Reading a collection in a store: [collection[key]],
    [collection.features], [collection.features[i]],
    [collection.features[i][key]], [collection.features[i].properties]
    and [collection.features[i].properties[key]]. *)
Definition collection_member (h : gmap loc object) (collection : loc) (key : string)
    : option value :=
  fields_at h collection ≫= (.!! key).

Definition features_loc (h : gmap loc object) (collection : loc) : option loc :=
  match collection_member h collection "features" with
  | Some (VRef la) => Some la
  | _ => None
  end.

Definition feature_loc (h : gmap loc object) (collection : loc) (i : nat) : option loc :=
  la ← features_loc h collection;
  elements ← elements_at h la;
  match elements !! i with
  | Some (VRef lf) => Some lf
  | _ => None
  end.

Definition feature_member (h : gmap loc object) (collection : loc) (i : nat)
    (key : string) : option value :=
  lf ← feature_loc h collection i;
  fields_at h lf ≫= (.!! key).

Definition properties_loc (h : gmap loc object) (collection : loc) (i : nat)
    : option loc :=
  match feature_member h collection i "properties" with
  | Some (VRef lp) => Some lp
  | _ => None
  end.

Definition feature_property (h : gmap loc object) (collection : loc) (i : nat)
    (key : string) : option value :=
  lp ← properties_loc h collection i;
  fields_at h lp ≫= (.!! key).

(** A store with one feature: a geometry object at 1, a property bag at
    2, the feature at 3, the features array at 4, the collection at 5. *)
Definition sample : gmap loc object :=
  {[ 1%positive := Obj {[ "type" := VStr "Point" ]};
     2%positive := Obj {[ "ADMIN" := VStr "India" ]};
     3%positive := Obj {[ "type" := VStr "Feature";
                          "geometry" := VRef 1%positive;
                          "properties" := VRef 2%positive ]};
     4%positive := Arr [VRef 3%positive];
     5%positive := Obj {[ "type" := VStr "FeatureCollection";
                          "features" := VRef 4%positive ]} ]}.

End Store.

(** * Properties *)

(** ** Reading the enriched properties *)

Lemma nullish_false (o : option value) :
  nullish o = false → ∃ v, o = Some v ∧ v ≠ VNull.
Proof.
  destruct o as [[]|]; simpl; intros H; try discriminate; eexists; split; done.
Qed.

Lemma or_literal_not_null (a : option value) (d : value) :
  d ≠ VNull → or_literal a d ≠ VNull.
Proof.
  intros Hd. unfold or_literal, coalesce.
  destruct (nullish a) eqn:Ha; [done|].
  by destruct (nullish_false _ Ha) as (v & -> & Hv).
Qed.

Lemma or_literal_nullish (a : option value) (d : value) :
  nullish a = true → or_literal a d = d.
Proof. unfold or_literal, coalesce. by intros ->. Qed.

Lemma or_literal_present (a : option value) (d v : value) :
  a = Some v → v ≠ VNull → or_literal a d = v.
Proof. intros -> Hv. unfold or_literal, coalesce. by destruct v. Qed.

Lemma modernName_not_null (feature : Feature) : modernName feature ≠ VNull.
Proof. by apply or_literal_not_null. Qed.

Lemma dwaparaName_not_null (feature : Feature) : dwaparaName feature ≠ VNull.
Proof. apply or_literal_not_null, modernName_not_null. Qed.

Lemma modernName_first_present (feature : Feature) :
  modernName feature =
  default (VStr "Unknown Realm")
    (first_present
       [prop feature "NAME_LONG"; prop feature "ADMIN"; prop feature "SOVEREIGNT"]).
Proof.
  unfold modernName, or_literal, coalesce.
  destruct (prop feature "NAME_LONG") as [[]|];
    destruct (prop feature "ADMIN") as [[]|];
    destruct (prop feature "SOVEREIGNT") as [[]|]; reflexivity.
Qed.

Lemma dwaparaName_lookup (feature : Feature) :
  dwaparaName feature =
  match Map_get dwaparaLookup (modernName feature) with
  | Some a => a
  | None => modernName feature
  end.
Proof.
  unfold dwaparaName, or_literal, coalesce, Map_get.
  destruct (modernName feature); try reflexivity.
  by destruct (dwaparaLookup !! s).
Qed.

Lemma prop_enrichFeature_MODERN_NAME (feature : Feature) :
  prop (enrichFeature feature) "MODERN_NAME" = Some (modernName feature).
Proof. unfold prop; simpl. apply lookup_insert_eq. Qed.

Lemma prop_enrichFeature_DWAPARA_NAME (feature : Feature) :
  prop (enrichFeature feature) "DWAPARA_NAME" = Some (dwaparaName feature).
Proof. unfold prop; simpl. by rewrite lookup_insert_ne, lookup_insert_eq. Qed.

(** Every other property is carried over. *)
Lemma prop_enrichFeature_other (feature : Feature) (key : string) :
  key ≠ "DWAPARA_NAME" → key ≠ "MODERN_NAME" →
  prop (enrichFeature feature) key = prop feature key.
Proof.
  intros H1 H2. unfold prop; simpl.
  rewrite !lookup_insert_ne by done.
  by destruct (properties feature).
Qed.

Lemma modernName_enrichFeature (feature : Feature) :
  modernName (enrichFeature feature) = modernName feature.
Proof. unfold modernName. by rewrite !prop_enrichFeature_other. Qed.

Lemma dwaparaName_enrichFeature (feature : Feature) :
  dwaparaName (enrichFeature feature) = dwaparaName feature.
Proof. unfold dwaparaName. by rewrite modernName_enrichFeature. Qed.

(** ** The naming table *)

Lemma Map_new_lookup (entries : list (string * string)) (k v : string) :
  Map_new entries !! k = Some v → (k, v) ∈ entries.
Proof.
  unfold Map_new.
  assert (∀ m : gmap string string,
    foldl (λ m e, <[e.1 := e.2]> m) m entries !! k = Some v →
    m !! k = Some v ∨ (k, v) ∈ entries) as Hgen.
  { induction entries as [|[k' v'] entries IH]; simpl; intros m Hm; [by left|].
    destruct (IH _ Hm) as [Hin|Hin]; [|right; by constructor].
    destruct (decide (k' = k)) as [->|Hne].
    - rewrite lookup_insert_eq in Hin. injection Hin as ->. right. constructor.
    - rewrite lookup_insert_ne in Hin by done. by left. }
  intros H. by destruct (Hgen ∅ H) as [?|?].
Qed.

Lemma dwaparaEntries_not_empty : Forall (λ e, e.2 ≠ "") dwaparaEntries.
Proof. unfold dwaparaEntries. repeat constructor; discriminate. Qed.

Lemma dwaparaLookup_not_empty (k v : string) :
  dwaparaLookup !! k = Some v → v ≠ "".
Proof.
  intros H%Map_new_lookup.
  by apply (proj1 (Forall_forall _ _) dwaparaEntries_not_empty (k, v)).
Qed.

Lemma dwaparaName_not_empty (feature : Feature) :
  modernName feature ≠ VStr "" → dwaparaName feature ≠ VStr "".
Proof.
  intros Hm. rewrite dwaparaName_lookup. unfold Map_get.
  destruct (modernName feature) as [| | |s|]; try done.
  destruct (dwaparaLookup !! s) as [a|] eqn:Ha; simpl; [|done].
  intros [= ->]. by apply (dwaparaLookup_not_empty s "").
Qed.

Lemma first_present_not_empty (candidates : list (option value)) (v : value) :
  Forall (λ c, c ≠ Some (VStr "")) candidates →
  first_present candidates = Some v → v ≠ VStr "".
Proof.
  induction 1 as [|c cs Hc _ IH]; simpl; [done|].
  destruct c as [[]|]; try (by apply IH); intros [= <-]; congruence.
Qed.

(** ** enrichDataset: the derived names *)

(** C1.  Each feature of the output carries, as MODERN_NAME, the first of
    NAME_LONG, ADMIN and SOVEREIGNT of the input feature that is present
    and not null, or "Unknown Realm" when there is none; and as
    DWAPARA_NAME the naming table's entry for that name when there is one,
    the name itself otherwise.  A feature with only ADMIN = "India" gets
    MODERN_NAME = "India" and DWAPARA_NAME = "Bharata Khanda". *)
Theorem enrichDataset_names (collection : FeatureCollection) :
  Forall2
    (λ feature enriched,
       ∃ m,
         prop enriched "MODERN_NAME" = Some m
         ∧ m = default (VStr "Unknown Realm")
                 (first_present [prop feature "NAME_LONG";
                                 prop feature "ADMIN";
                                 prop feature "SOVEREIGNT"])
         ∧ prop enriched "DWAPARA_NAME" =
             Some (match Map_get dwaparaLookup m with
                   | Some a => a
                   | None => m
                   end))
    (features collection) (features (enrichDataset collection))
  ∧ (λ enriched, (prop enriched "MODERN_NAME", prop enriched "DWAPARA_NAME"))
      <$> features (enrichDataset
            {| features := [ {| properties := Some {[ "ADMIN" := VStr "India" ]};
                                members := ∅ |} ];
               extras := ∅ |})
    = [ (Some (VStr "India"), Some (VStr "Bharata Khanda")) ].
Proof.
  split.
  - unfold enrichDataset; simpl.
    induction (features collection) as [|feature rest IH]; simpl; constructor; [|exact IH].
    exists (modernName feature). split; [apply prop_enrichFeature_MODERN_NAME|].
    split; [apply modernName_first_present|].
    rewrite prop_enrichFeature_DWAPARA_NAME. f_equal. apply dwaparaName_lookup.
  - vm_compute. reflexivity.
Qed.

(** C4, as the code has it.  In every feature of the output DWAPARA_NAME
    equals MODERN_NAME when the table has no entry for it, and
    DWAPARA_NAME is not the empty string whenever MODERN_NAME is not, so
    in particular whenever none of the three name fields of the input is
    the empty string. *)
Theorem enrichDataset_alternate_name (collection : FeatureCollection) :
  Forall2
    (λ feature enriched,
       ∃ m a,
         prop enriched "MODERN_NAME" = Some m
         ∧ prop enriched "DWAPARA_NAME" = Some a
         ∧ (Map_get dwaparaLookup m = None → a = m)
         ∧ (m ≠ VStr "" → a ≠ VStr "")
         ∧ (Forall (λ key, prop feature key ≠ Some (VStr ""))
              ["NAME_LONG"; "ADMIN"; "SOVEREIGNT"] →
            a ≠ VStr ""))
    (features collection) (features (enrichDataset collection)).
Proof.
  unfold enrichDataset; simpl.
  induction (features collection) as [|feature rest IH]; simpl; constructor; [|exact IH].
  exists (modernName feature), (dwaparaName feature).
  split; [apply prop_enrichFeature_MODERN_NAME|].
  split; [apply prop_enrichFeature_DWAPARA_NAME|].
  split; [|split].
  - intros Hnone. rewrite dwaparaName_lookup. by rewrite Hnone.
  - apply dwaparaName_not_empty.
  - intros Hkeys. apply dwaparaName_not_empty.
    rewrite modernName_first_present.
    destruct (first_present _) as [v|] eqn:Hv; simpl; [|done].
    refine (first_present_not_empty _ _ _ Hv).
    repeat match goal with H : Forall _ (_ :: _) |- _ => apply Forall_cons in H as [? H] end.
    by repeat constructor.
Qed.

(** C4 as the specification states it does not hold: a feature whose NAME_LONG is the
    empty string is enriched with an empty DWAPARA_NAME. *)
Lemma enrichDataset_empty_alternate_name :
  (λ enriched, prop enriched "DWAPARA_NAME")
    <$> features (enrichDataset
          {| features := [ {| properties := Some {[ "NAME_LONG" := VStr "";
                                                     "ADMIN" := VStr "India" ]};
                              members := ∅ |} ];
             extras := ∅ |})
  = [ Some (VStr "") ].
Proof. vm_compute. reflexivity. Qed.

Lemma enrichFeature_twice (feature : Feature) :
  enrichFeature (enrichFeature feature) = enrichFeature feature.
Proof.
  unfold enrichFeature at 1.
  rewrite modernName_enrichFeature, dwaparaName_enrichFeature. simpl.
  unfold enrichFeature. f_equal. f_equal.
  apply map_eq. intros key.
  destruct (decide (key = "MODERN_NAME")) as [->|?];
    [by rewrite !lookup_insert_eq|].
  destruct (decide (key = "DWAPARA_NAME")) as [->|?].
  - by rewrite lookup_insert_ne, lookup_insert_eq, lookup_insert_ne, lookup_insert_eq.
  - by rewrite !lookup_insert_ne.
Qed.

Lemma enrichDataset_twice (collection : FeatureCollection) :
  enrichDataset (enrichDataset collection) = enrichDataset collection.
Proof.
  unfold enrichDataset; simpl. f_equal.
  rewrite <- list_fmap_compose. apply list_fmap_ext.
  intros _ feature _. apply enrichFeature_twice.
Qed.

(** ** The load effect after cleanup *)

Lemma step_unsubscribed (st : WorldMapState) (fx : Effect) (ev : event) :
  isSubscribed fx = false →
  (step (st, fx) ev).1 = st ∧ isSubscribed (step (st, fx) ev).2 = false.
Proof.
  intros Hoff. unfold step, catch.
  destruct ev as [err|response|err|raw|], (stage fx); simpl;
    try destruct (ok response); simpl; rewrite ?Hoff; by split.
Qed.

Lemma run_unsubscribed (evs : list event) (st : WorldMapState) (fx : Effect) :
  isSubscribed fx = false →
  (run (st, fx) evs).1 = st ∧ isSubscribed (run (st, fx) evs).2 = false.
Proof.
  unfold run. revert st fx.
  induction evs as [|ev evs IH]; intros st fx Hoff; [by split|].
  change (foldl step (st, fx) (ev :: evs)) with (foldl step (step (st, fx) ev) evs).
  destruct (step_unsubscribed st fx ev Hoff) as [Hst Hfx].
  destruct (step (st, fx) ev) as [st' fx']. cbn [fst snd] in Hst, Hfx. subst st'.
  by apply IH.
Qed.

Lemma step_Cleanup (s : WorldMapState * Effect) :
  (step s Cleanup).1 = s.1 ∧ isSubscribed (step s Cleanup).2 = false.
Proof. destruct s as [st fx]. unfold step. by destruct (stage fx). Qed.

(** C2.  Whatever happened before the cleanup, and whatever the fetch
    does after it, the component's state stays what it was when the
    cleanup ran: no event after the cleanup sets the dataset or the error. *)
Theorem no_state_change_after_cleanup
    (st : WorldMapState) (before after : list event) :
  let detached := run (mount st) (before ++ [Cleanup]) in
  let final := run (mount st) (before ++ Cleanup :: after) in
  final.1 = detached.1
  ∧ detached.1 = (run (mount st) before).1
  ∧ dataset final.1 = dataset detached.1
  ∧ error final.1 = error detached.1
  ∧ render final.1 = render detached.1.
Proof.
  simpl. unfold run. rewrite !foldl_app. simpl.
  set (s := foldl step (mount st) before).
  destruct (step_Cleanup s) as [Hst Hoff].
  destruct (step s Cleanup) as [st' fx'] eqn:Hs; simpl in *.
  destruct (run_unsubscribed after st' fx' Hoff) as [Hrun _].
  unfold run in Hrun. rewrite Hrun. by repeat split.
Qed.

(** ** Failures of the fetch *)

Lemma catch_subscribed (err : thrown) (st : WorldMapState) (fx : Effect) :
  isSubscribed fx = true → catch err st fx = setError (errorMessage err) st.
Proof. unfold catch. by intros ->. Qed.

Lemma render_error (st : WorldMapState) (message : string) :
  isMounted st = true → message ≠ "" →
  render (setError message st) = ErrorView message.
Proof.
  intros Hm Hne. unfold render; simpl. rewrite Hm; simpl.
  by destruct message.
Qed.

(** X18.  While the effect is subscribed and the
    component is mounted: a response that is not ok sets the error to
    "Failed to load dataset: " followed by its statusText, which is never
    empty, and the error view shows it; a thrown value that is not an
    Error sets the error to "Unknown error while loading dataset", and the
    error view shows it; a thrown Error sets the error to its message, and
    the error view shows it when the message is not empty. *)
Theorem failure_sets_error (st : WorldMapState) (fx : Effect) :
  isSubscribed fx = true →
  isMounted st = true →
  (∀ response, stage fx = AwaitFetch → ok response = false →
     let st' := (step (st, fx) (FetchResolved response)).1 in
     let message := "Failed to load dataset: " ++ statusText response in
     error st' = Some message ∧ message ≠ "" ∧ render st' = ErrorView message)
  ∧ (∀ ev v,
       (stage fx = AwaitFetch ∧ ev = FetchRejected (ThrownValue v))
       ∨ (stage fx = AwaitJson ∧ ev = JsonRejected (ThrownValue v)) →
       let st' := (step (st, fx) ev).1 in
       error st' = Some "Unknown error while loading dataset"
       ∧ render st' = ErrorView "Unknown error while loading dataset")
  ∧ (∀ ev message,
       (stage fx = AwaitFetch ∧ ev = FetchRejected (ErrorObject message))
       ∨ (stage fx = AwaitJson ∧ ev = JsonRejected (ErrorObject message)) →
       let st' := (step (st, fx) ev).1 in
       error st' = Some message
       ∧ (message ≠ "" → render st' = ErrorView message)).
Proof.
  intros Hon Hm. split; [|split].
  - intros response Hstage Hok. simpl. rewrite Hstage, Hok; simpl.
    rewrite catch_subscribed by done. simpl.
    split; [done|]. split; [done|]. by apply render_error.
  - intros ev v [[Hstage ->]|[Hstage ->]]; simpl; rewrite Hstage; simpl;
      rewrite catch_subscribed by done; (split; [done|by apply render_error]).
  - intros ev message [[Hstage ->]|[Hstage ->]]; simpl; rewrite Hstage; simpl;
      rewrite catch_subscribed by done;
      (split; [done|intros; by apply render_error]).
Qed.

Lemma failure_sets_error_not_ok :
  let s := mount initialState in
  let st' := (step s (FetchResolved {| ok := false; statusText := "Not Found" |})).1 in
  error st' = Some "Failed to load dataset: Not Found"
  ∧ render st' = ErrorView "Failed to load dataset: Not Found".
Proof.
  destruct (failure_sets_error (mount initialState).1 (mount initialState).2
              eq_refl eq_refl) as [Hstatus _].
  destruct (Hstatus {| ok := false; statusText := "Not Found" |} eq_refl eq_refl)
    as (Herr & _ & Hview).
  split; [exact Herr|exact Hview].
Defined.

(** C3.  The specification asks that every failure of the fetch, while
    subscribed, ends in the error view with a non-empty message.  When
    the fetch, or the reading of the body, rejects with an Error whose
    message is empty, the error is set to the empty string, [loadDataset]
    has finished, and the view that is shown is the loading placeholder.
    The other failures do reach the error view: a thrown value that is
    not an Error with the fallback message, and a response that is not ok
    with the prefix, also when its statusText is empty. *)
Theorem empty_error_message_shows_loading :
  let failed := run (mount initialState) [FetchRejected (ErrorObject "")] in
  let failed_body :=
    run (mount initialState)
      [FetchResolved {| ok := true; statusText := "OK" |}; JsonRejected (ErrorObject "")] in
  let other := run (mount initialState) [FetchRejected (ThrownValue VNull)] in
  let status :=
    run (mount initialState) [FetchResolved {| ok := false; statusText := "" |}] in
  error failed.1 = Some "" ∧ stage failed.2 = Finished ∧ render failed.1 = LoadingView
  ∧ error failed_body.1 = Some "" ∧ stage failed_body.2 = Finished
  ∧ render failed_body.1 = LoadingView
  ∧ render other.1 = ErrorView "Unknown error while loading dataset"
  ∧ render status.1 = ErrorView "Failed to load dataset: ".
Proof. simpl. by repeat split. Qed.

(** ** The hover handlers *)

Lemma setOptions_covered (style style' options : gmap string value) :
  dom style' ⊆ dom style →
  setOptions style (setOptions style' options) = setOptions style options.
Proof.
  intros Hdom. unfold setOptions. apply map_eq. intros key.
  rewrite !lookup_union.
  destruct (style !! key) as [v|] eqn:Hs; [by destruct (style' !! key), (options !! key)|].
  assert (style' !! key = None) as ->; [|by destruct (options !! key)].
  apply not_elem_of_dom. intros Hin. apply Hdom in Hin.
  by apply elem_of_dom in Hin as [? ?]; congruence.
Qed.

Lemma setOptions_lookup (style options : gmap string value) (key : string) (v : value) :
  style !! key = Some v → setOptions style options !! key = Some v.
Proof. apply lookup_union_Some_l. Qed.

Lemma setOptions_other (style options : gmap string value) (key : string) :
  key ∉ dom style → setOptions style options !! key = options !! key.
Proof.
  intros Hkey%not_elem_of_dom. unfold setOptions.
  rewrite lookup_union, Hkey. by destruct (options !! key).
Qed.

Lemma dom_defaultStyle :
  dom defaultStyle = ({["color"; "weight"; "fillColor"; "fillOpacity"]} : gset string).
Proof. unfold defaultStyle. rewrite !dom_insert_L, dom_singleton_L. set_solver. Qed.

Lemma dom_hoverStyle : dom hoverStyle = dom defaultStyle.
Proof.
  unfold hoverStyle. rewrite !dom_insert_L, dom_defaultStyle. set_solver.
Qed.

(** Induction on a layer, with the layers of a group. *)
Lemma layer_nested_ind (P : layer → Prop) :
  (∀ options, P (Path options)) →
  (∀ options, P (Marker options)) →
  (∀ layers, Forall P layers → P (FeatureGroup layers)) →
  ∀ l, P l.
Proof.
  intros HPath HMarker HGroup. fix IH 1. intros [options|options|layers].
  - apply HPath.
  - apply HMarker.
  - apply HGroup. induction layers as [|l layers IHlayers]; constructor;
      [apply IH|exact IHlayers].
Qed.

Lemma invoke_setStyle_covered (style style' : gmap string value) (l : layer) :
  dom style' ⊆ dom style →
  invoke_setStyle style (invoke_setStyle style' l) = invoke_setStyle style l.
Proof.
  intros Hdom. induction l as [options|options|layers IH] using layer_nested_ind; simpl.
  - by rewrite setOptions_covered.
  - done.
  - f_equal. rewrite <- list_fmap_compose. apply Forall_fmap_ext_1.
    eapply Forall_impl; [exact IH|]. intros l Hl. exact Hl.
Qed.

Definition styleOn (ev : mouse) : gmap string value :=
  match ev with
  | mouseover => hoverStyle
  | mouseout => featureStyle
  end.

Lemma dom_styleOn (ev : mouse) : dom (styleOn ev) = dom defaultStyle.
Proof. destruct ev; [apply dom_hoverStyle|done]. Qed.

Lemma fire_setStyle (target : layer) (ev : mouse) :
  fire target ev = setStyle (styleOn ev) target.
Proof. by destruct ev. Qed.

Lemma after_invoke (target : layer) (ev : mouse) :
  after target ev = invoke_setStyle (styleOn ev) target.
Proof. unfold after. rewrite fire_setStyle. by destruct target. Qed.

Lemma after_last (events : list mouse) (ev : mouse) (target : layer) :
  foldl after target (events ++ [ev]) = invoke_setStyle (styleOn ev) target.
Proof.
  rewrite foldl_app. simpl. rewrite after_invoke.
  induction events as [|e events IH] using rev_ind; [done|].
  rewrite foldl_app. simpl. rewrite after_invoke, <- IH.
  apply invoke_setStyle_covered. by rewrite !dom_styleOn.
Qed.

Lemma fire_throws (target : layer) (ev : mouse) :
  fire target ev = None ↔ ∃ options, target = Marker options.
Proof.
  rewrite fire_setStyle. destruct target; simpl; split; try done; eauto.
  all: by intros [? ?].
Qed.

(** C9.  The specification asks that on every feature layer hover-enter
    followed by hover-exit gives back the default style.  For a Point
    feature the layer is a marker, which has no setStyle: both handlers
    throw on it, and the marker is after the two events what it was
    before, with no option of either style set on it by the handlers. *)
Theorem hover_on_point_feature_throws (path_options marker_options : gmap string value) :
  let target := featureLayer path_options marker_options Point in
  target = Marker marker_options
  ∧ handleFeatureHover target = None
  ∧ handleFeatureLeave target = None
  ∧ after (after target mouseover) mouseout = target
  ∧ handleFeatureHover (featureLayer path_options marker_options Polygon)
    = Some (Path (setOptions hoverStyle (setOptions featureStyle path_options))).
Proof. simpl. by repeat split. Qed.

(** X17.  The handlers throw on a marker and on no other layer.  On a
    path, any sequence of mouseover and mouseout that ends in mouseout
    leaves the path with the default style set on it, and any sequence
    that ends in mouseover with the hover style set on it; the hover
    style has weight 2.5 and fillOpacity 0.38 and the colours of the
    default style; no option other than these four is touched; and on a
    path that carries the default style, mouseover then mouseout gives
    back every option as it was.  On a group the same holds of every
    path in it, and its markers are left alone. *)
Theorem hover_leave_path_styles (events : list mouse) (target : layer)
    (options : gmap string value) :
  (handleFeatureHover target = None ↔ ∃ o, target = Marker o)
  ∧ (handleFeatureLeave target = None ↔ ∃ o, target = Marker o)
  ∧ foldl after (Path options) (events ++ [mouseout])
      = Path (setOptions defaultStyle options)
  ∧ foldl after (Path options) (events ++ [mouseover])
      = Path (setOptions hoverStyle options)
  ∧ (handleFeatureHover (Path (setOptions featureStyle options)) ≫= handleFeatureLeave)
      = Some (Path (setOptions featureStyle options))
  ∧ (λ key, setOptions defaultStyle options !! key)
      <$> ["color"; "weight"; "fillColor"; "fillOpacity"]
      = (λ key, defaultStyle !! key) <$> ["color"; "weight"; "fillColor"; "fillOpacity"]
  ∧ (λ key, setOptions hoverStyle options !! key)
      <$> ["color"; "weight"; "fillColor"; "fillOpacity"]
      = [defaultStyle !! "color"; Some (VNum 2.5);
         defaultStyle !! "fillColor"; Some (VNum 0.38)]
  ∧ (∃ options', foldl after (Path options) events = Path options'
       ∧ ∀ key, key ∉ dom defaultStyle → options' !! key = options !! key)
  ∧ foldl after target (events ++ [mouseout]) = invoke_setStyle defaultStyle target
  ∧ foldl after target (events ++ [mouseover]) = invoke_setStyle hoverStyle target.
Proof.
  split; [apply (fire_throws target mouseover)|].
  split; [apply (fire_throws target mouseout)|].
  split; [apply (after_last events mouseout)|].
  split; [apply (after_last events mouseover)|].
  split.
  { simpl. unfold handleFeatureLeave. simpl. unfold featureStyle.
    by rewrite !setOptions_covered by (by rewrite ?dom_hoverStyle). }
  split; [simpl; by erewrite !setOptions_lookup by (vm_compute; reflexivity)|].
  split; [simpl; by erewrite !setOptions_lookup by (vm_compute; reflexivity)|].
  split; [|split; [apply (after_last events mouseout)|apply (after_last events mouseover)]].
  induction events as [|e events (options' & Hrun & Hkeys)] using rev_ind;
    [by exists options|].
  rewrite foldl_app. simpl. rewrite Hrun, after_invoke. simpl.
  eexists. split; [done|]. intros key Hkey.
  rewrite setOptions_other by (by rewrite dom_styleOn). by apply Hkeys.
Qed.

(** ** The tooltip *)

Section TooltipFacts.

Context `{Engine}.

Lemma join_element_not_null (v : value) : v ≠ VNull → join_element v = ToString v.
Proof. by destruct v. Qed.

Lemma tooltipLines_named (feature : Feature) (a m : value) :
  prop feature "DWAPARA_NAME" = Some a → a ≠ VNull →
  prop feature "MODERN_NAME" = Some m → m ≠ VNull →
  tooltipLines feature =
    if strict_equal m a then [a] else [a; VStr ("Modern: " ++ ToString m)].
Proof.
  intros Ha Hna Hm Hnm. unfold tooltipLines.
  rewrite (or_literal_present _ _ a Ha Hna), (or_literal_present _ _ m Hm Hnm).
  by destruct (strict_equal m a).
Qed.

Lemma handleEachFeature_named (feature : Feature) (a m : value) :
  prop feature "DWAPARA_NAME" = Some a → a ≠ VNull →
  prop feature "MODERN_NAME" = Some m → m ≠ VNull →
  handleEachFeature feature =
    if strict_equal m a then ToString a
    else ToString a ++ newline ++ "Modern: " ++ ToString m.
Proof.
  intros Ha Hna Hm Hnm. unfold handleEachFeature.
  rewrite (tooltipLines_named feature a m) by done.
  destruct (strict_equal m a); simpl; by rewrite join_element_not_null.
Qed.

(** C8.  For every feature of an enriched dataset the tooltip starts
    with DWAPARA_NAME; it is that single line when MODERN_NAME is strictly
    equal to DWAPARA_NAME, and it has the second line "Modern: " followed
    by MODERN_NAME exactly when the two differ.  For two strings, strictly
    equal is equal. *)
Theorem tooltip_of_enriched (collection : FeatureCollection) :
  Forall
    (λ enriched,
       ∃ a m,
         prop enriched "DWAPARA_NAME" = Some a
         ∧ prop enriched "MODERN_NAME" = Some m
         ∧ tooltipLines enriched =
             (if strict_equal m a then [a]
              else [a; VStr ("Modern: " ++ ToString m)])
         ∧ handleEachFeature enriched =
             (if strict_equal m a then ToString a
              else ToString a ++ newline ++ "Modern: " ++ ToString m)
         ∧ (length (tooltipLines enriched) = 2 ↔ strict_equal m a = false)
         ∧ (length (tooltipLines enriched) = 1 ↔ strict_equal m a = true)
         ∧ (∀ s t, a = VStr s → m = VStr t →
              handleEachFeature enriched =
                if decide (t = s) then s else s ++ newline ++ "Modern: " ++ t))
    (features (enrichDataset collection)).
Proof.
  unfold enrichDataset; simpl. apply Forall_fmap, Forall_forall.
  intros feature _. simpl.
  exists (dwaparaName feature), (modernName feature).
  pose proof (prop_enrichFeature_DWAPARA_NAME feature) as Ha.
  pose proof (prop_enrichFeature_MODERN_NAME feature) as Hm.
  pose proof (dwaparaName_not_null feature) as Hna.
  pose proof (modernName_not_null feature) as Hnm.
  split; [done|]. split; [done|].
  rewrite (tooltipLines_named _ _ _ Ha Hna Hm Hnm).
  rewrite (handleEachFeature_named _ _ _ Ha Hna Hm Hnm).
  split; [done|]. split; [done|].
  split; [by destruct (strict_equal _ _)|].
  split; [by destruct (strict_equal _ _)|].
  intros s t -> ->. simpl. unfold bool_decide. by destruct (decide_rel _ t s), (decide (t = s)).
Qed.


End TooltipFacts.


(** ** enrichDataset over a store *)

Module StoreFacts.
Import Store.

Lemma alloc_fresh (o : object) (h : gmap loc object) :
  ∃ l, alloc o h = Some (l, <[l := o]> h) ∧ (l ∉ dom h) ∧ h ⊆ <[l := o]> h.
Proof.
  exists (fresh (dom h)). split; [done|].
  pose proof (is_fresh (dom h)) as Hfresh. split; [done|].
  apply insert_subseteq. by apply not_elem_of_dom.
Qed.

Lemma fields_at_weaken (h h' : gmap loc object) (l : loc) (fields : gmap string value) :
  h ⊆ h' → fields_at h l = Some fields → fields_at h' l = Some fields.
Proof.
  intros Hsub. unfold fields_at.
  destruct (h !! l) as [[f|?]|] eqn:Hl; try done.
  by rewrite (lookup_weaken _ _ _ _ Hl Hsub).
Qed.

Lemma elements_at_weaken (h h' : gmap loc object) (l : loc) (elements : list value) :
  h ⊆ h' → elements_at h l = Some elements → elements_at h' l = Some elements.
Proof.
  intros Hsub. unfold elements_at.
  destruct (h !! l) as [[?|es]|] eqn:Hl; try done.
  by rewrite (lookup_weaken _ _ _ _ Hl Hsub).
Qed.

Lemma fields_at_insert_eq (h : gmap loc object) (l : loc) (fields : gmap string value) :
  fields_at (<[l := Obj fields]> h) l = Some fields.
Proof. unfold fields_at. by rewrite lookup_insert_eq. Qed.

Lemma view_feature_weaken (h h' : gmap loc object) (fields : gmap string value)
    (feature : Feature) :
  h ⊆ h' → view_feature h fields = Some feature → view_feature h' fields = Some feature.
Proof.
  intros Hsub. unfold view_feature.
  destruct (fields !! "properties") as [[| | | |lp]|]; try done.
  destruct (fields_at h lp) as [bag|] eqn:Hbag; [|done].
  by rewrite (fields_at_weaken _ _ _ _ Hsub Hbag).
Qed.

Lemma view_element_weaken (h h' : gmap loc object) (e : value) (feature : Feature) :
  h ⊆ h' → view_element h e = Some feature → view_element h' e = Some feature.
Proof.
  intros Hsub. destruct e as [| | | |lf]; try done. simpl.
  destruct (fields_at h lf) as [fields|] eqn:Hf; [|done]. simpl.
  rewrite (fields_at_weaken _ _ _ _ Hsub Hf). simpl.
  by apply view_feature_weaken.
Qed.

Lemma enriched_copy_weaken (h h1 h2 : gmap loc object) (e e' : value) :
  h1 ⊆ h2 → enriched_copy h h1 e e' → enriched_copy h h2 e e'.
Proof.
  intros Hsub (lf & fields & feature & lf' & lp & ? & ? & ? & ? & ? & ? & Hf & Hp).
  exists lf, fields, feature, lf', lp.
  repeat (split; [done|]).
  split; by eapply fields_at_weaken.
Qed.

(** The feature an enriched copy stands for is the enriched feature. *)
Lemma enriched_copy_view (h h' : gmap loc object) (e e' : value) (feature : Feature) :
  enriched_copy h h' e e' → view_element h e = Some feature →
  view_element h' e' = Some (enrichFeature feature).
Proof.
  intros (lf & fields & feature' & lf' & lp & -> & Hf & Hv & -> & _ & _ & Hf' & Hp) He.
  simpl in He. rewrite Hf in He. simpl in He.
  assert (feature' = feature) as -> by congruence.
  simpl. rewrite Hf'. simpl.
  unfold view_feature at 1. rewrite lookup_insert_eq, Hp. simpl.
  unfold enrichFeature. f_equal. f_equal.
  rewrite delete_insert_eq.
  unfold view_feature in Hv.
  destruct (fields !! "properties") as [[| | | |l]|]; try done;
    try (by injection Hv as <-).
  destruct (fields_at h l); [|done]. by injection Hv as <-.
Qed.

Lemma enriched_copies_view (h h' : gmap loc object) (elements : list value)
    (fs : list Feature) :
  Forall2 (λ e f, view_element h e = Some f) elements fs →
  ∀ elements', Forall2 (enriched_copy h h') elements elements' →
  Forall2 (λ e' f', view_element h' e' = Some f') elements' (enrichFeature <$> fs).
Proof.
  induction 1 as [|e f es fs He _ IH]; intros elements' Hc.
  - inversion Hc. constructor.
  - inversion Hc as [|? e' ? es' Hce Hces]; subst. simpl. constructor.
    + by eapply enriched_copy_view.
    + by apply IH.
Qed.

Lemma enrichFeature_st_spec (h0 h : gmap loc object) (e : value) (feature : Feature) :
  h0 ⊆ h → view_element h0 e = Some feature →
  ∃ e' h',
    enrichFeature_st e h = Some (e', h') ∧ h ⊆ h' ∧ enriched_copy h0 h' e e'.
Proof.
  intros Hsub He. destruct e as [| | | |lf]; try done. simpl in He.
  destruct (fields_at h0 lf) as [fields|] eqn:Hf; [|done]. simpl in He.
  set (bag := <["MODERN_NAME" := modernName feature]>
                (<["DWAPARA_NAME" := dwaparaName feature]>
                  (default ∅ (properties feature)))).
  destruct (alloc_fresh (Obj bag) h) as (lp & Hlp & Hlp_new & Hsub1).
  set (h1 := <[lp := Obj bag]> h) in *.
  destruct (alloc_fresh (Obj (<["properties" := VRef lp]> fields)) h1)
    as (lf' & Hlf' & Hlf'_new & Hsub2).
  set (h2 := <[lf' := Obj (<["properties" := VRef lp]> fields)]> h1) in *.
  exists (VRef lf'), h2. split; [|split].
  - unfold enrichFeature_st, bind, get, lift, ret.
    rewrite (fields_at_weaken _ _ _ _ Hsub Hf).
    rewrite (view_feature_weaken _ _ _ _ Hsub He).
    fold bag. rewrite Hlp. fold h1. by rewrite Hlf'.
  - by etrans.
  - exists lf, fields, feature, lf', lp.
    assert (dom h0 ⊆ dom h1) as Hdom.
    { apply subseteq_dom. by etrans. }
    split; [done|]. split; [done|]. split; [done|]. split; [done|].
    split; [set_solver|].
    split; [apply subseteq_dom in Hsub; set_solver|].
    split; [apply fields_at_insert_eq|].
    apply (fields_at_weaken h1); [done|apply fields_at_insert_eq].
Qed.

Lemma Array_map_spec (h0 : gmap loc object) (elements : list value) :
  ∀ (fs : list Feature) (h : gmap loc object),
    h0 ⊆ h → Forall2 (λ e f, view_element h0 e = Some f) elements fs →
    ∃ elements' h',
      Array_map enrichFeature_st elements h = Some (elements', h')
      ∧ h ⊆ h'
      ∧ Forall2 (enriched_copy h0 h') elements elements'.
Proof.
  induction elements as [|e rest IH]; intros fs h Hsub Hview.
  - exists [], h. by repeat split.
  - inversion Hview as [|? f ? fs' He Hrest]; subst.
    destruct (enrichFeature_st_spec h0 h e f Hsub He) as (e' & h1 & Hrun & Hsub1 & Hcopy).
    destruct (IH fs' h1 (transitivity Hsub Hsub1) Hrest)
      as (rest' & h2 & Hrun' & Hsub2 & Hcopies).
    exists (e' :: rest'), h2. split; [|split].
    + simpl. unfold bind at 1. rewrite Hrun. unfold bind at 1. by rewrite Hrun'.
    + by etrans.
    + constructor; [by eapply enriched_copy_weaken|done].
Qed.

(** On a store in which [collection] names a well-typed feature
    collection, [enrichDataset] returns; it leaves every object of the
    store as it was; the collection object, the features array, and each
    feature object and property bag of the result are new; and the result
    stands for the enriched collection. *)
Lemma enrichDataset_st_spec (h : gmap loc object) (collection : loc)
    (c : FeatureCollection) :
  view_collection h collection = Some c →
  ∃ fields la elements collection' la' elements' h',
    enrichDataset_st collection h = Some (collection', h')
    ∧ h ⊆ h'
    ∧ fields_at h collection = Some fields
    ∧ fields !! "features" = Some (VRef la)
    ∧ elements_at h la = Some elements
    ∧ (collection' ∉ dom h)
    ∧ (la' ∉ dom h)
    ∧ fields_at h' collection' = Some (<["features" := VRef la']> fields)
    ∧ elements_at h' la' = Some elements'
    ∧ Forall2 (enriched_copy h h') elements elements'
    ∧ view_collection h' collection' = Some (enrichDataset c).
Proof.
  intros Hview. unfold view_collection in Hview.
  destruct (fields_at h collection) as [fields|] eqn:Hfields; [|done]. simpl in Hview.
  destruct (fields !! "features") as [[| | | |la]|] eqn:Hla; try done.
  destruct (elements_at h la) as [elements|] eqn:Helements; [|done]. simpl in Hview.
  destruct (mapM (view_element h) elements) as [fs|] eqn:Hfs; [|done]. simpl in Hview.
  injection Hview as <-.
  apply mapM_Some in Hfs.
  destruct (Array_map_spec h elements fs h (reflexivity h) Hfs)
    as (elements' & h1 & Hrun & Hsub1 & Hcopies).
  destruct (alloc_fresh (Arr elements') h1) as (la' & Hla' & Hla'_new & Hsub2).
  set (h2 := <[la' := Arr elements']> h1) in *.
  destruct (alloc_fresh (Obj (<["features" := VRef la']> fields)) h2)
    as (lc' & Hlc' & Hlc'_new & Hsub3).
  set (h3 := <[lc' := Obj (<["features" := VRef la']> fields)]> h2) in *.
  assert (h ⊆ h3) as Hsub by (etrans; [done|by etrans]).
  assert (elements_at h3 la' = Some elements') as Hout.
  { apply (elements_at_weaken h2); [done|].
    unfold elements_at, h2. by rewrite lookup_insert_eq. }
  exists fields, la, elements, lc', la', elements', h3.
  split.
  { unfold enrichDataset_st, bind, get, lift. rewrite Hfields, Hla, Helements.
    rewrite Hrun, Hla'. fold h2. exact Hlc'. }
  split; [done|]. split; [done|]. split; [done|]. split; [done|].
  split; [apply subseteq_dom in Hsub1, Hsub2; set_solver|].
  split; [apply subseteq_dom in Hsub1; set_solver|].
  split; [apply fields_at_insert_eq|]. split; [done|].
  assert (Forall2 (enriched_copy h h3) elements elements') as Hcopies3.
  { eapply Forall2_impl; [exact Hcopies|].
    intros e e' Hc. eapply enriched_copy_weaken; [|exact Hc]. by etrans. }
  split; [done|].
  unfold view_collection.
  rewrite (fields_at_insert_eq h2 lc' _ : fields_at h3 lc' = _). simpl.
  rewrite lookup_insert_eq, Hout. simpl.
  assert (mapM (view_element h3) elements' = Some (enrichFeature <$> fs)) as ->.
  { apply mapM_Some. by eapply enriched_copies_view. }
  simpl. unfold enrichDataset. simpl. by rewrite delete_insert_eq.
Qed.

Lemma view_collection_weaken (h h' : gmap loc object) (collection : loc)
    (c : FeatureCollection) :
  h ⊆ h' → view_collection h collection = Some c → view_collection h' collection = Some c.
Proof.
  intros Hsub. unfold view_collection.
  destruct (fields_at h collection) as [fields|] eqn:Hf; [|done]. simpl.
  rewrite (fields_at_weaken _ _ _ _ Hsub Hf). simpl.
  destruct (fields !! "features") as [[| | | |la]|]; try done.
  destruct (elements_at h la) as [elements|] eqn:He; [|done]. simpl.
  rewrite (elements_at_weaken _ _ _ _ Hsub He). simpl.
  destruct (mapM (view_element h) elements) as [fs|] eqn:Hfs; [|done]. simpl.
  assert (mapM (view_element h') elements = Some fs) as ->; [|done].
  apply mapM_Some. apply mapM_Some in Hfs.
  eapply Forall2_impl; [exact Hfs|]. intros e f. by apply view_element_weaken.
Qed.

(** The old properties of a feature, read through its view. *)
Lemma view_feature_bag (h : gmap loc object) (fields : gmap string value)
    (feature : Feature) (key : string) :
  view_feature h fields = Some feature →
  match fields !! "properties" with
  | Some (VRef lp) => fields_at h lp ≫= (.!! key)
  | _ => None
  end = default ∅ (properties feature) !! key.
Proof.
  unfold view_feature.
  destruct (fields !! "properties") as [[| | | |lp]|]; try done;
    try (by intros [= <-]).
  destruct (fields_at h lp) as [bag|]; [|done]. by intros [= <-].
Qed.

Section Readers.

Variables (h h' : gmap loc object) (collection collection' la la' : loc).
Variables (fields : gmap string value) (elements elements' : list value).
Hypothesis Hfields : fields_at h collection = Some fields.
Hypothesis Hla : fields !! "features" = Some (VRef la).
Hypothesis Helements : elements_at h la = Some elements.
Hypothesis Hfields' : fields_at h' collection' = Some (<["features" := VRef la']> fields).
Hypothesis Helements' : elements_at h' la' = Some elements'.
Hypothesis Hcopies : Forall2 (enriched_copy h h') elements elements'.

Lemma features_loc_in : features_loc h collection = Some la.
Proof. unfold features_loc, collection_member. rewrite Hfields. simpl. by rewrite Hla. Qed.

Lemma features_loc_out : features_loc h' collection' = Some la'.
Proof.
  unfold features_loc, collection_member. rewrite Hfields'. simpl.
  by rewrite lookup_insert_eq.
Qed.

Lemma feature_loc_in (i : nat) :
  feature_loc h collection i =
  match elements !! i with Some (VRef lf) => Some lf | _ => None end.
Proof. unfold feature_loc. rewrite features_loc_in. simpl. by rewrite Helements. Qed.

Lemma feature_loc_out (i : nat) :
  feature_loc h' collection' i =
  match elements' !! i with Some (VRef lf) => Some lf | _ => None end.
Proof. unfold feature_loc. rewrite features_loc_out. simpl. by rewrite Helements'. Qed.

Lemma collection_member_out (key : string) :
  key ≠ "features" →
  collection_member h' collection' key = collection_member h collection key.
Proof.
  intros Hkey. unfold collection_member. rewrite Hfields', Hfields. simpl.
  by rewrite lookup_insert_ne.
Qed.

(** The objects of the [i]-th feature of the result are new. *)
Lemma feature_out_new (i : nat) :
  i < length elements →
  ∃ lf lp,
    feature_loc h' collection' i = Some lf ∧ (lf ∉ dom h)
    ∧ properties_loc h' collection' i = Some lp ∧ (lp ∉ dom h).
Proof.
  intros Hi. destruct (lookup_lt_is_Some_2 _ _ Hi) as [e He].
  destruct (Forall2_lookup_l _ _ _ _ _ Hcopies He) as (e' & He' & Hcopy).
  destruct Hcopy as (lf & ff & feature & lf' & lp & -> & _ & _ & -> & Hlf' & Hlp & Hff' & _).
  exists lf', lp.
  assert (feature_loc h' collection' i = Some lf') as Hloc.
  { by rewrite feature_loc_out, He'. }
  split; [done|]. split; [done|]. split; [|done].
  unfold properties_loc, feature_member. rewrite Hloc. simpl. rewrite Hff'. simpl.
  by rewrite lookup_insert_eq.
Qed.

Lemma feature_member_out (i : nat) (key : string) :
  key ≠ "properties" →
  feature_member h' collection' i key = feature_member h collection i key.
Proof.
  intros Hkey. unfold feature_member. rewrite feature_loc_out, feature_loc_in.
  pose proof (proj1 (Forall2_lookup _ _ _) Hcopies i) as Hi.
  destruct Hi as [e e' Hcopy|]; [|done].
  destruct Hcopy as (lf & ff & feature & lf' & lp & -> & Hff & _ & -> & _ & _ & Hff' & _).
  simpl. rewrite Hff, Hff'. simpl. by rewrite lookup_insert_ne.
Qed.

Lemma feature_property_out (i : nat) (key : string) :
  key ≠ "DWAPARA_NAME" → key ≠ "MODERN_NAME" →
  feature_property h' collection' i key = feature_property h collection i key.
Proof.
  intros HD HM. unfold feature_property, properties_loc, feature_member.
  rewrite feature_loc_out, feature_loc_in.
  pose proof (proj1 (Forall2_lookup _ _ _) Hcopies i) as Hi.
  destruct Hi as [e e' Hcopy|]; [|done].
  destruct Hcopy as (lf & ff & feature & lf' & lp & -> & Hff & Hview & -> & _ & _ & Hff' & Hbag).
  simpl. rewrite Hff, Hff'. simpl. rewrite lookup_insert_eq. simpl. rewrite Hbag. simpl.
  rewrite !lookup_insert_ne by done.
  rewrite <- (view_feature_bag h ff feature key Hview).
  by destruct (ff !! "properties") as [[]|].
Qed.

End Readers.

(** C6, as the code has it.  On a store in which [collection] names a
    feature collection, the call returns and changes no object of the
    store, so the input reads after the call as it did before.  The
    collection object, the features array, every feature object and every
    property bag of the result are objects the store did not have.  The
    copy is one level deep: every member of the collection other than
    features, every member of a feature other than properties, and every
    property other than DWAPARA_NAME and MODERN_NAME has in the result the
    value it has in the input, which for a nested object or array is the
    same reference. *)
Theorem enrichDataset_shallow_copy (h : gmap loc object) (collection : loc)
    (c : FeatureCollection) :
  view_collection h collection = Some c →
  ∃ collection' h',
    enrichDataset_st collection h = Some (collection', h')
    ∧ h ⊆ h'
    ∧ view_collection h' collection = Some c
    ∧ view_collection h' collection' = Some (enrichDataset c)
    ∧ (collection' ∉ dom h)
    ∧ (∃ la', features_loc h' collection' = Some la' ∧ la' ∉ dom h)
    ∧ (∀ i, i < length (features c) →
         ∃ lf lp,
           feature_loc h' collection' i = Some lf ∧ (lf ∉ dom h)
           ∧ properties_loc h' collection' i = Some lp ∧ (lp ∉ dom h))
    ∧ (∀ key, key ≠ "features" →
         collection_member h' collection' key = collection_member h collection key)
    ∧ (∀ i key, key ≠ "properties" →
         feature_member h' collection' i key = feature_member h collection i key)
    ∧ (∀ i key, key ≠ "DWAPARA_NAME" → key ≠ "MODERN_NAME" →
         feature_property h' collection' i key = feature_property h collection i key).
Proof.
  intros Hview.
  destruct (enrichDataset_st_spec h collection c Hview)
    as (fields & la & elements & collection' & la' & elements' & h'
        & Hrun & Hsub & Hfields & Hla & Helements & Hnew & Hla'_new
        & Hfields' & Helements' & Hcopies & Hview').
  exists collection', h'.
  split; [done|]. split; [done|].
  split; [by eapply view_collection_weaken|]. split; [done|]. split; [done|].
  split; [exists la'; split; [by eapply features_loc_out|done]|].
  split.
  { intros i Hi. eapply feature_out_new; try done.
    unfold view_collection in Hview. rewrite Hfields in Hview. simpl in Hview.
    rewrite Hla, Helements in Hview. simpl in Hview.
    destruct (mapM (view_element h) elements) as [fs|] eqn:Hfs; [|done].
    injection Hview as <-. simpl in Hi.
    apply mapM_Some, Forall2_length in Hfs. by rewrite Hfs. }
  split; [intros key; by eapply collection_member_out|].
  split; [intros i key; by eapply feature_member_out|].
  intros i key. by eapply feature_property_out.
Qed.

Lemma enrichDataset_shallow_copy_sample :
  ∃ c collection' h',
    view_collection sample 5%positive = Some c
    ∧ enrichDataset_st 5%positive sample = Some (collection', h')
    ∧ sample ⊆ h'
    ∧ (collection' ∉ dom sample).
Proof.
  destruct (view_collection sample 5%positive) as [c|] eqn:Hview;
    [|by vm_compute in Hview].
  destruct (enrichDataset_shallow_copy sample 5%positive c Hview)
    as (collection' & h' & Hrun & Hsub & _ & _ & Hnew & _).
  by exists c, collection', h'.
Defined.

(** C6 as the specification states it does not hold: the geometry of the feature that
    [enrichDataset] returns is the very object that is the geometry of
    the input feature. *)
Lemma enrichDataset_shares_geometry :
  feature_member sample 5%positive 0 "geometry" = Some (VRef 1%positive)
  ∧ (enrichDataset_st 5%positive sample
       ≫= λ r, feature_member r.2 r.1 0 "geometry") = Some (VRef 1%positive).
Proof. split; vm_compute; reflexivity. Qed.

(** C5.  The transform returns on every feature collection; its result
    has as many features as its input, the [i]-th being the enriched
    [i]-th feature of the input, and the other members of the collection
    are kept.  Run on a store in which [l] names the collection, it
    returns a reference to an object that reads as that result. *)
Theorem enrichDataset_total_same_length (collection : FeatureCollection) :
  length (features (enrichDataset collection)) = length (features collection)
  ∧ (∀ i, features (enrichDataset collection) !! i
          = enrichFeature <$> features collection !! i)
  ∧ extras (enrichDataset collection) = extras collection
  ∧ (∀ h l, view_collection h l = Some collection →
       ∃ l' h', enrichDataset_st l h = Some (l', h')
                ∧ view_collection h' l' = Some (enrichDataset collection)).
Proof.
  split; [apply length_fmap|]. split; [intros i; apply list_lookup_fmap|].
  split; [done|].
  intros h l Hview.
  destruct (enrichDataset_st_spec h l collection Hview)
    as (? & ? & ? & l' & ? & ? & h' & Hrun & _ & _ & _ & _ & _ & _ & _ & _ & _ & Hview').
  by exists l', h'.
Qed.

(** C7.  Running the transform on its own output gives that output back:
    the names and every other datum are the same.  In a store, the second
    run returns a new object that reads as the object the first run
    returned. *)
Theorem enrichDataset_idempotent (collection : FeatureCollection) :
  enrichDataset (enrichDataset collection) = enrichDataset collection
  ∧ Forall
      (λ enriched,
         modernName enriched = default VNull (prop enriched "MODERN_NAME")
         ∧ dwaparaName enriched = default VNull (prop enriched "DWAPARA_NAME"))
      (features (enrichDataset collection))
  ∧ (∀ h l, view_collection h l = Some collection →
       ∃ l1 h1 l2 h2,
         enrichDataset_st l h = Some (l1, h1)
         ∧ enrichDataset_st l1 h1 = Some (l2, h2)
         ∧ view_collection h2 l1 = Some (enrichDataset collection)
         ∧ view_collection h2 l2 = Some (enrichDataset collection)).
Proof.
  split; [apply enrichDataset_twice|]. split.
  - unfold enrichDataset; simpl. apply Forall_fmap, Forall_forall.
    intros feature _. simpl.
    rewrite modernName_enrichFeature, dwaparaName_enrichFeature.
    by rewrite prop_enrichFeature_MODERN_NAME, prop_enrichFeature_DWAPARA_NAME.
  - intros h l Hview.
    destruct (enrichDataset_st_spec h l collection Hview)
      as (? & ? & ? & l1 & ? & ? & h1 & Hrun1 & _ & _ & _ & _ & _ & _ & _ & _ & _ & Hview1).
    destruct (enrichDataset_st_spec h1 l1 _ Hview1)
      as (? & ? & ? & l2 & ? & ? & h2 & Hrun2 & Hsub & _ & _ & _ & _ & _ & _ & _ & _ & Hview2).
    exists l1, h1, l2, h2. split; [done|]. split; [done|].
    split; [by eapply view_collection_weaken|].
    by rewrite enrichDataset_twice in Hview2.
Qed.

Example sample_run :
  (enrichDataset_st 5%positive sample ≫= λ r, feature_property r.2 r.1 0 "DWAPARA_NAME")
  = Some (VStr "Bharata Khanda").
Proof. vm_compute. reflexivity. Qed.

End StoreFacts.

(** * Further properties *)

Set Warnings "-clear-no-such-hyp".

(** ** The naming table as a [Map] *)

Lemma Map_new_snoc (entries : list (string * string)) (k v : string) :
  Map_new (entries ++ [(k, v)]) = <[k := v]> (Map_new entries).
Proof. unfold Map_new. by rewrite foldl_app. Qed.

Lemma Map_new_last (entries : list (string * string)) (k : string) :
  Map_new entries !! k = snd <$> last (filter (λ e, e.1 = k) entries).
Proof.
  induction entries as [|[k' v'] entries IH] using rev_ind; [done|].
  rewrite Map_new_snoc, filter_app, filter_cons, filter_nil. simpl.
  destruct (decide (k' = k)) as [->|Hne].
  - by rewrite lookup_insert_eq, last_snoc.
  - by rewrite lookup_insert_ne, app_nil_r.
Qed.

Lemma Map_new_is_Some (entries : list (string * string)) (k v : string) :
  (k, v) ∈ entries → is_Some (Map_new entries !! k).
Proof.
  induction entries as [|[k' v'] entries IH] using rev_ind; intros Hin.
  - by apply not_elem_of_nil in Hin.
  - rewrite Map_new_snoc. apply elem_of_app in Hin as [Hin|Hin].
    + destruct (decide (k' = k)) as [->|?];
        [rewrite lookup_insert_eq; eauto|rewrite lookup_insert_ne by done; auto].
    + apply list_elem_of_singleton in Hin as [= -> ->].
      rewrite lookup_insert_eq; eauto.
Qed.

Lemma dwaparaEntries_no_identity : Forall (λ e, e.1 ≠ e.2) dwaparaEntries.
Proof. unfold dwaparaEntries. repeat constructor; discriminate. Qed.

Lemma dwaparaLookup_not_identity (k v : string) :
  dwaparaLookup !! k = Some v → v ≠ k.
Proof.
  intros H%Map_new_lookup Heq.
  by apply (proj1 (Forall_forall _ _) dwaparaEntries_no_identity (k, v)).
Qed.

(** X1.  A [Map] built from a list of entries answers, for a key, with
    the value of the last entry that has this key, and with nothing for
    a key that no entry has.  In the table of the component the two keys
    that are listed twice have the same value both times, so every listed
    pair is what the lookup of its key returns; the 95 entries make 93
    keys. *)
Theorem dwaparaLookup_entries :
  (∀ entries k, Map_new entries !! k = snd <$> last (filter (λ e, e.1 = k) entries))
  ∧ (∀ entries k, Map_new entries !! k = None ↔ k ∉ entries.*1)
  ∧ Forall (λ e, Map_get dwaparaLookup (VStr e.1) = Some (VStr e.2)) dwaparaEntries
  ∧ length dwaparaEntries = 95
  ∧ size dwaparaLookup = 93.
Proof.
  split; [apply Map_new_last|]. split.
  - intros entries k. split.
    + intros Hnone Hin. apply list_elem_of_fmap in Hin as ([k' v] & -> & Hin).
      destruct (Map_new_is_Some _ _ _ Hin) as [? ?]. simpl in *. congruence.
    + intros Hnot. destruct (Map_new entries !! k) as [v|] eqn:Hk; [|done].
      destruct Hnot. apply list_elem_of_fmap. exists (k, v).
      split; [done|by apply Map_new_lookup].
  - split; [|split; vm_compute; reflexivity].
    unfold dwaparaEntries.
    repeat (constructor; [vm_compute; reflexivity|]). constructor.
Qed.

(** ** Names and tooltips of enriched features *)

Lemma default_properties_lookup (feature : Feature) (key : string) :
  default ∅ (properties feature) !! key = prop feature key.
Proof. unfold prop. by destruct (properties feature). Qed.

Lemma dwaparaName_mapped (feature : Feature) (s a : string) :
  modernName feature = VStr s → dwaparaLookup !! s = Some a →
  dwaparaName feature = VStr a.
Proof. intros Hm Ha. rewrite dwaparaName_lookup, Hm. unfold Map_get. by rewrite Ha. Qed.

Lemma dwaparaName_unmapped (feature : Feature) (s : string) :
  modernName feature = VStr s → dwaparaLookup !! s = None →
  dwaparaName feature = VStr s.
Proof. intros Hm Ha. rewrite dwaparaName_lookup, Hm. unfold Map_get. by rewrite Ha. Qed.

Lemma modernName_string (feature : Feature) :
  Forall (λ key, ∀ v, prop feature key = Some v → v = VNull ∨ ∃ s, v = VStr s)
    ["NAME_LONG"; "ADMIN"; "SOVEREIGNT"] →
  ∃ s, modernName feature = VStr s.
Proof.
  intros Htyped.
  repeat match goal with H : Forall _ (_ :: _) |- _ => apply Forall_cons in H as [? H] end.
  unfold modernName, or_literal, coalesce.
  repeat match goal with
  | H : ∀ v, prop feature ?k = Some v → _ |- _ =>
      let Hk := fresh "Hk" in
      destruct (prop feature k) as [?|] eqn:Hk;
      [destruct (H _ eq_refl) as [->|[? ->]]|]; clear H
  end; simpl; eauto.
Qed.

Section EnrichedTooltips.

Context `{Engine}.

Lemma tooltip_enriched_strings (feature : Feature) (s a : string) :
  modernName feature = VStr s → dwaparaName feature = VStr a →
  tooltipLines (enrichFeature feature) =
    (if decide (s = a) then [VStr a] else [VStr a; VStr ("Modern: " ++ s)])
  ∧ handleEachFeature (enrichFeature feature) =
    (if decide (s = a) then a else a ++ newline ++ "Modern: " ++ s).
Proof.
  intros Hm Ha.
  pose proof (prop_enrichFeature_DWAPARA_NAME feature) as HD.
  pose proof (prop_enrichFeature_MODERN_NAME feature) as HM.
  rewrite Hm in HM. rewrite Ha in HD.
  rewrite (tooltipLines_named _ _ _ HD ltac:(done) HM ltac:(done)).
  rewrite (handleEachFeature_named _ _ _ HD ltac:(done) HM ltac:(done)).
  simpl. unfold bool_decide. by destruct (decide_rel _ s a), (decide (s = a)).
Qed.

(** X2.  No entry of the table maps a name to itself.  So a feature
    whose modern name is a key of the table gets the table's value as
    DWAPARA_NAME, different from MODERN_NAME, and its tooltip has both
    lines: the value, then "Modern: " and the modern name. *)
Theorem mapped_name_tooltip (feature : Feature) (s a : string) :
  modernName feature = VStr s →
  dwaparaLookup !! s = Some a →
  prop (enrichFeature feature) "MODERN_NAME" = Some (VStr s)
  ∧ prop (enrichFeature feature) "DWAPARA_NAME" = Some (VStr a)
  ∧ a ≠ s
  ∧ tooltipLines (enrichFeature feature) = [VStr a; VStr ("Modern: " ++ s)]
  ∧ handleEachFeature (enrichFeature feature) = a ++ newline ++ "Modern: " ++ s.
Proof.
  intros Hm Ha.
  pose proof (dwaparaName_mapped _ _ _ Hm Ha) as Hd.
  pose proof (dwaparaLookup_not_identity _ _ Ha) as Hne.
  destruct (tooltip_enriched_strings feature s a Hm Hd) as [Hlines Htext].
  rewrite prop_enrichFeature_MODERN_NAME, prop_enrichFeature_DWAPARA_NAME, Hm, Hd.
  destruct (decide (s = a)); [congruence|]. by repeat split.
Qed.

(** X3.  A feature whose modern name is a string that is not a key of
    the table keeps that name as DWAPARA_NAME, and its tooltip is the
    name alone. *)
Theorem unmapped_name_tooltip (feature : Feature) (s : string) :
  modernName feature = VStr s →
  dwaparaLookup !! s = None →
  prop (enrichFeature feature) "MODERN_NAME" = Some (VStr s)
  ∧ prop (enrichFeature feature) "DWAPARA_NAME" = Some (VStr s)
  ∧ tooltipLines (enrichFeature feature) = [VStr s]
  ∧ handleEachFeature (enrichFeature feature) = s.
Proof.
  intros Hm Ha.
  pose proof (dwaparaName_unmapped _ _ Hm Ha) as Hd.
  destruct (tooltip_enriched_strings feature s s Hm Hd) as [Hlines Htext].
  rewrite prop_enrichFeature_MODERN_NAME, prop_enrichFeature_DWAPARA_NAME, Hm, Hd.
  destruct (decide (s = s)); [|congruence]. by repeat split.
Qed.

(** X4.  A feature on which NAME_LONG, ADMIN and SOVEREIGNT are each
    missing or null, or whose properties are null, is named
    "Unknown Realm" twice, and its tooltip is the single line
    "Unknown Realm". *)
Theorem nameless_feature_tooltip (feature : Feature) :
  nullish (prop feature "NAME_LONG") = true →
  nullish (prop feature "ADMIN") = true →
  nullish (prop feature "SOVEREIGNT") = true →
  prop (enrichFeature feature) "MODERN_NAME" = Some (VStr "Unknown Realm")
  ∧ prop (enrichFeature feature) "DWAPARA_NAME" = Some (VStr "Unknown Realm")
  ∧ handleEachFeature (enrichFeature feature) = "Unknown Realm".
Proof.
  intros H1 H2 H3.
  assert (modernName feature = VStr "Unknown Realm") as Hm.
  { unfold modernName, or_literal, coalesce. by rewrite H1, H2, H3. }
  assert (dwaparaLookup !! "Unknown Realm" = None) as Ha by (vm_compute; reflexivity).
  pose proof (dwaparaName_unmapped _ _ Hm Ha) as Hd.
  destruct (tooltip_enriched_strings feature _ _ Hm Hd) as [_ Htext].
  rewrite prop_enrichFeature_MODERN_NAME, prop_enrichFeature_DWAPARA_NAME, Hm, Hd.
  by repeat split.
Qed.

(** X6.  When each of NAME_LONG, ADMIN and SOVEREIGNT is missing, null
    or a string, as the declared type has it, both derived names are
    strings, and the tooltip is made of these two strings alone: the
    DWAPARA_NAME, followed by the "Modern: " line when they differ. *)
Theorem typed_names_are_strings (feature : Feature) :
  Forall (λ key, ∀ v, prop feature key = Some v → v = VNull ∨ ∃ s, v = VStr s)
    ["NAME_LONG"; "ADMIN"; "SOVEREIGNT"] →
  ∃ m a : string,
    prop (enrichFeature feature) "MODERN_NAME" = Some (VStr m)
    ∧ prop (enrichFeature feature) "DWAPARA_NAME" = Some (VStr a)
    ∧ handleEachFeature (enrichFeature feature) =
        if decide (m = a) then a else a ++ newline ++ "Modern: " ++ m.
Proof.
  intros Htyped. destruct (modernName_string feature Htyped) as [m Hm].
  assert (∃ a, dwaparaName feature = VStr a) as [a Hd].
  { destruct (dwaparaLookup !! m) as [a|] eqn:Ha;
      [exists a; by eapply dwaparaName_mapped|exists m; by apply dwaparaName_unmapped]. }
  exists m, a.
  rewrite prop_enrichFeature_MODERN_NAME, prop_enrichFeature_DWAPARA_NAME, Hm, Hd.
  split; [done|]. split; [done|].
  by destruct (tooltip_enriched_strings feature m a Hm Hd).
Qed.

End EnrichedTooltips.

(** X5.  The transform never reads the DWAPARA_NAME or MODERN_NAME of
    its input: two features with the same members that agree on every
    other property are enriched to the same feature. *)
Theorem enrichFeature_ignores_derived_names (f g : Feature) :
  members f = members g →
  (∀ key, key ≠ "DWAPARA_NAME" → key ≠ "MODERN_NAME" → prop f key = prop g key) →
  enrichFeature f = enrichFeature g.
Proof.
  intros Hmembers Hprops.
  assert (modernName f = modernName g) as Hm.
  { unfold modernName. by rewrite !Hprops. }
  assert (dwaparaName f = dwaparaName g) as Hd.
  { unfold dwaparaName. by rewrite Hm. }
  unfold enrichFeature. rewrite Hmembers, Hm, Hd. f_equal. f_equal.
  apply map_eq. intros key.
  destruct (decide (key = "MODERN_NAME")) as [->|?];
    [by rewrite !lookup_insert_eq|].
  destruct (decide (key = "DWAPARA_NAME")) as [->|?].
  - by rewrite !(lookup_insert_ne _ "MODERN_NAME"), !lookup_insert_eq.
  - rewrite !lookup_insert_ne by done.
    rewrite !default_properties_lookup. by apply Hprops.
Qed.

Lemma mapped_name_tooltip_India :
  let engine := {| number_to_string := λ _, "0"; object_to_string := λ _, "[object Object]" |} in
  let feature := {| properties := Some {[ "ADMIN" := VStr "India" ]}; members := ∅ |} in
  modernName feature = VStr "India"
  ∧ dwaparaLookup !! "India" = Some "Bharata Khanda"
  ∧ handleEachFeature (enrichFeature feature)
    = "Bharata Khanda" ++ newline ++ "Modern: India".
Proof.
  intros engine feature.
  assert (modernName feature = VStr "India") as Hm by (vm_compute; reflexivity).
  assert (dwaparaLookup !! "India" = Some "Bharata Khanda") as Ha
    by (vm_compute; reflexivity).
  split; [exact Hm|]. split; [exact Ha|].
  exact (proj2 (proj2 (proj2 (proj2 (mapped_name_tooltip feature _ _ Hm Ha))))).
Defined.

Lemma unmapped_name_tooltip_Atlantis :
  let engine := {| number_to_string := λ _, "0"; object_to_string := λ _, "[object Object]" |} in
  let feature := {| properties := Some {[ "ADMIN" := VStr "Atlantis" ]}; members := ∅ |} in
  modernName feature = VStr "Atlantis"
  ∧ dwaparaLookup !! "Atlantis" = None
  ∧ handleEachFeature (enrichFeature feature) = "Atlantis".
Proof.
  intros engine feature.
  assert (modernName feature = VStr "Atlantis") as Hm by (vm_compute; reflexivity).
  assert (dwaparaLookup !! "Atlantis" = None) as Ha by (vm_compute; reflexivity).
  split; [exact Hm|]. split; [exact Ha|].
  exact (proj2 (proj2 (proj2 (unmapped_name_tooltip feature _ Hm Ha)))).
Defined.

Lemma nameless_feature_tooltip_null_fields :
  let engine := {| number_to_string := λ _, "0"; object_to_string := λ _, "[object Object]" |} in
  let feature := {| properties := Some {[ "ADMIN" := VNull; "POP_EST" := VNum 1 ]};
                    members := ∅ |} in
  nullish (prop feature "NAME_LONG") = true
  ∧ nullish (prop feature "ADMIN") = true
  ∧ nullish (prop feature "SOVEREIGNT") = true
  ∧ handleEachFeature (enrichFeature feature) = "Unknown Realm".
Proof.
  intros engine feature.
  split; [reflexivity|]. split; [reflexivity|]. split; [reflexivity|].
  exact (proj2 (proj2 (nameless_feature_tooltip feature eq_refl eq_refl eq_refl))).
Defined.

Lemma typed_names_are_strings_sample :
  let engine := {| number_to_string := λ _, "0"; object_to_string := λ _, "[object Object]" |} in
  let feature := {| properties := Some {[ "NAME_LONG" := VNull; "ADMIN" := VStr "India" ]};
                    members := ∅ |} in
  ∃ m a : string,
    prop (enrichFeature feature) "MODERN_NAME" = Some (VStr m)
    ∧ prop (enrichFeature feature) "DWAPARA_NAME" = Some (VStr a).
Proof.
  intros engine feature.
  assert (Forall (λ key, ∀ v, prop feature key = Some v → v = VNull ∨ ∃ s, v = VStr s)
            ["NAME_LONG"; "ADMIN"; "SOVEREIGNT"]) as Htyped.
  { repeat (apply List.Forall_cons;
      [intros v Hv; vm_compute in Hv;
       first [discriminate Hv | injection Hv as <-; eauto]|]).
    apply List.Forall_nil. }
  destruct (typed_names_are_strings feature Htyped) as (m & a & Hm & Ha & _).
  by exists m, a.
Defined.

Lemma enrichFeature_ignores_derived_names_stale :
  let f := {| properties := Some {[ "ADMIN" := VStr "India";
                                     "DWAPARA_NAME" := VStr "Old" ]};
              members := ∅ |} in
  let g := {| properties := Some {[ "ADMIN" := VStr "India" ]}; members := ∅ |} in
  prop f "DWAPARA_NAME" = Some (VStr "Old")
  ∧ prop g "DWAPARA_NAME" = None
  ∧ enrichFeature f = enrichFeature g.
Proof.
  intros f g. split; [reflexivity|]. split; [reflexivity|].
  apply (enrichFeature_ignores_derived_names f g eq_refl).
  intros key HD HM. unfold prop; simpl.
  destruct (decide (key = "ADMIN")) as [->|HA]; [reflexivity|].
  rewrite lookup_insert_ne by done.
  rewrite !lookup_singleton_ne by done. reflexivity.
Defined.

(** ** The load effect, from mount to a settled state *)

Lemma run_cons (s : WorldMapState * Effect) (ev : event) (evs : list event) :
  run s (ev :: evs) = run (step s ev) evs.
Proof. reflexivity. Qed.

Lemma step_finished (st : WorldMapState) (fx : Effect) (ev : event) :
  stage fx = Finished →
  (step (st, fx) ev).1 = st ∧ stage (step (st, fx) ev).2 = Finished.
Proof. intros Hfin. unfold step. rewrite Hfin. by destruct ev. Qed.

Lemma run_finished (evs : list event) (st : WorldMapState) (fx : Effect) :
  stage fx = Finished →
  (run (st, fx) evs).1 = st ∧ stage (run (st, fx) evs).2 = Finished.
Proof.
  revert st fx. induction evs as [|ev evs IH]; intros st fx Hfin; [done|].
  rewrite run_cons.
  destruct (step_finished st fx ev Hfin) as [Hst Hfx].
  destruct (step (st, fx) ev) as [st' fx']. cbn [fst snd] in Hst, Hfx. subst st'.
  by apply IH.
Qed.

(** What holds of the component after any events since the mount. *)
Definition settled_once (s : WorldMapState * Effect) : Prop :=
  isMounted s.1 = true
  ∧ (stage s.2 ≠ Finished → dataset s.1 = None ∧ error s.1 = None)
  ∧ (dataset s.1 = None ∨ error s.1 = None)
  ∧ (∀ d, dataset s.1 = Some d → ∃ raw, d = enrichDataset raw).

Lemma settled_once_step (s : WorldMapState * Effect) (ev : event) :
  settled_once s → settled_once (step s ev).
Proof.
  destruct s as [st fx]. intros (Hm & Hpending & Hone & Hraw).
  cbn [fst snd] in *.
  assert (stage fx = Finished ∨ stage fx ≠ Finished) as [Hfin|Hnot]
    by (destruct (stage fx); auto).
  { destruct (step_finished st fx ev Hfin) as [Hst Hfx].
    unfold settled_once. rewrite Hst. by repeat split. }
  destruct (Hpending Hnot) as [Hd He].
  unfold settled_once, step, catch, setError, setDataset.
  destruct ev as [err|response|err|raw|], (stage fx) eqn:Hstage;
    try destruct (ok response); destruct (isSubscribed fx);
    cbn [fst snd dataset error isMounted stage finish];
    repeat split; try done; try (by left); try (by right);
    try (intros d Hsome; congruence);
    try (intros d [= <-]; by eexists).
Qed.

Lemma settled_once_run (evs : list event) (s : WorldMapState * Effect) :
  settled_once s → settled_once (run s evs).
Proof.
  revert s. induction evs as [|ev evs IH]; intros s Hs; [done|].
  rewrite run_cons. by apply IH, settled_once_step.
Qed.

Lemma settled_once_mount : settled_once (mount initialState).
Proof. unfold settled_once; simpl. repeat split; try done; by left. Qed.

Lemma enrichDataset_names_present (raw : FeatureCollection) :
  Forall (λ feature, ∃ a m,
            prop feature "DWAPARA_NAME" = Some a ∧ a ≠ VNull
            ∧ prop feature "MODERN_NAME" = Some m ∧ m ≠ VNull)
    (features (enrichDataset raw)).
Proof.
  unfold enrichDataset; simpl. apply Forall_fmap, Forall_forall. intros feature _. simpl.
  exists (dwaparaName feature), (modernName feature).
  split; [apply prop_enrichFeature_DWAPARA_NAME|].
  split; [apply dwaparaName_not_null|].
  split; [apply prop_enrichFeature_MODERN_NAME|apply modernName_not_null].
Qed.

(** X7.  After the mount, whatever the events: the component stays
    mounted and never shows the initializing placeholder; the dataset and
    the error are never both set; and as long as [loadDataset] has not
    finished, neither is set and the loading placeholder is shown. *)
Theorem mounted_component_invariant (evs : list event) :
  let s := run (mount initialState) evs in
  isMounted s.1 = true
  ∧ render s.1 ≠ Initializing
  ∧ (dataset s.1 = None ∨ error s.1 = None)
  ∧ (stage s.2 ≠ Finished →
     dataset s.1 = None ∧ error s.1 = None ∧ render s.1 = LoadingView).
Proof.
  intros s.
  destruct (settled_once_run evs _ settled_once_mount) as (Hm & Hpending & Hone & _).
  fold s in Hm, Hpending, Hone.
  split; [done|]. split.
  { unfold render. rewrite Hm. simpl.
    destruct (truthy _); [done|]. by destruct (dataset s.1). }
  split; [done|].
  intros Hnot. destruct (Hpending Hnot) as [Hd He].
  split; [done|]. split; [done|].
  unfold render. by rewrite Hm, He, Hd.
Qed.

(** X8.  Once [loadDataset] has finished, no later event changes the
    dataset, the error or the mounted flag, and it stays finished: one
    run of the effect sets the state at most once. *)
Theorem finished_effect_is_silent (st : WorldMapState) (fx : Effect)
    (evs later : list event) :
  stage fx = Finished →
  (run (st, fx) evs).1 = st
  ∧ stage (run (st, fx) evs).2 = Finished
  ∧ (run (st, fx) (evs ++ later)).1 = st
  ∧ render (run (st, fx) (evs ++ later)).1 = render st.
Proof.
  intros Hfin.
  destruct (run_finished evs st fx Hfin) as [Hst Hstage].
  destruct (run_finished (evs ++ later) st fx Hfin) as [Hst' _].
  by rewrite Hst, Hst'.
Qed.

Lemma finished_effect_is_silent_after_error :
  let s := step (mount initialState) (FetchRejected (ErrorObject "Failed to fetch")) in
  let late := [JsonResolved {| features := []; extras := ∅ |};
               FetchResolved {| ok := true; statusText := "OK" |}] in
  stage s.2 = Finished
  ∧ (run s late).1 = s.1
  ∧ error (run s late).1 = Some "Failed to fetch".
Proof.
  intros s late.
  destruct (finished_effect_is_silent s.1 s.2 late [] eq_refl) as [Hst _].
  split; [reflexivity|]. split; [exact Hst|].
  change (run s late) with (run (s.1, s.2) late). rewrite Hst. reflexivity.
Defined.

(** X9.  While the effect is subscribed: a response that is ok followed
    by its body sets the dataset to the enriched body and leaves the
    error as it was, and [loadDataset] has finished; on a mounted
    component without an error the map is then shown with the enriched
    body. *)
Theorem successful_load (st : WorldMapState) (fx : Effect)
    (response : Response) (raw : FeatureCollection) :
  isSubscribed fx = true →
  stage fx = AwaitFetch →
  ok response = true →
  let s := run (st, fx) [FetchResolved response; JsonResolved raw] in
  dataset s.1 = Some (enrichDataset raw)
  ∧ error s.1 = error st
  ∧ stage s.2 = Finished
  ∧ (isMounted st = true → truthy (error st) = false →
     render s.1 = MapView (enrichDataset raw)).
Proof.
  intros Hon Hstage Hok. simpl. rewrite Hstage, Hok. simpl. rewrite Hon. simpl.
  repeat split; try done.
  intros Hm He. unfold render; simpl. by rewrite Hm, He.
Qed.

Lemma successful_load_from_mount :
  let raw := {| features := [ {| properties := Some {[ "ADMIN" := VStr "India" ]};
                                 members := ∅ |} ];
                extras := ∅ |} in
  let s := run (mount initialState)
             [FetchResolved {| ok := true; statusText := "OK" |}; JsonResolved raw] in
  render s.1 = MapView (enrichDataset raw).
Proof.
  intros raw s.
  exact (proj2 (proj2 (proj2 (successful_load (mount initialState).1
           (mount initialState).2 {| ok := true; statusText := "OK" |} raw
           eq_refl eq_refl eq_refl))) eq_refl eq_refl).
Defined.

(** X10.  After a response that is not ok the body is never used: no
    later event sets the dataset, and the map is never shown for it. *)
Theorem not_ok_never_loads (st : WorldMapState) (fx : Effect)
    (response : Response) (evs : list event) :
  stage fx = AwaitFetch →
  ok response = false →
  let s := run (st, fx) (FetchResolved response :: evs) in
  dataset s.1 = dataset st
  ∧ stage s.2 = Finished
  ∧ (isSubscribed fx = true →
     error s.1 = Some ("Failed to load dataset: " ++ statusText response)).
Proof.
  intros Hstage Hok s. unfold s. rewrite run_cons.
  assert (step (st, fx) (FetchResolved response)
          = (catch (ErrorObject ("Failed to load dataset: " ++ statusText response)) st fx,
             finish fx)) as ->.
  { unfold step. by rewrite Hstage, Hok. }
  destruct (run_finished evs
    (catch (ErrorObject ("Failed to load dataset: " ++ statusText response)) st fx)
    (finish fx) eq_refl) as [-> ->].
  split; [unfold catch; by destruct (isSubscribed fx)|]. split; [done|].
  intros Hon. unfold catch. by rewrite Hon.
Qed.

Lemma not_ok_never_loads_late_body :
  let s := run (mount initialState)
             [FetchResolved {| ok := false; statusText := "Not Found" |};
              JsonResolved {| features := []; extras := ∅ |}] in
  dataset s.1 = None ∧ error s.1 = Some "Failed to load dataset: Not Found".
Proof.
  intros s.
  destruct (not_ok_never_loads (mount initialState).1 (mount initialState).2
              {| ok := false; statusText := "Not Found" |}
              [JsonResolved {| features := []; extras := ∅ |}] eq_refl eq_refl)
    as (Hd & _ & He).
  split; [exact Hd|exact (He eq_refl)].
Defined.

(** X11.  Whenever the map is shown after the mount, the data it is
    given is the result of [enrichDataset]: every feature handed to the
    map has a DWAPARA_NAME and a MODERN_NAME, neither null. *)
Theorem shown_map_is_enriched (evs : list event) (d : FeatureCollection) :
  render (run (mount initialState) evs).1 = MapView d →
  (∃ raw, d = enrichDataset raw)
  ∧ Forall (λ feature, ∃ a m,
              prop feature "DWAPARA_NAME" = Some a ∧ a ≠ VNull
              ∧ prop feature "MODERN_NAME" = Some m ∧ m ≠ VNull)
      (features d).
Proof.
  intros Hview.
  destruct (settled_once_run evs _ settled_once_mount) as (_ & _ & _ & Hraw).
  assert (dataset (run (mount initialState) evs).1 = Some d) as Hd.
  { unfold render in Hview.
    destruct (negb _); [done|]. destruct (truthy _); [done|].
    destruct (dataset _); [by injection Hview as ->|done]. }
  destruct (Hraw d Hd) as [raw ->].
  split; [by exists raw|apply enrichDataset_names_present].
Qed.

Lemma shown_map_is_enriched_sample :
  let raw := {| features := [ {| properties := None; members := ∅ |} ]; extras := ∅ |} in
  let evs := [FetchResolved {| ok := true; statusText := "OK" |}; JsonResolved raw] in
  render (run (mount initialState) evs).1 = MapView (enrichDataset raw)
  ∧ ∃ raw', enrichDataset raw = enrichDataset raw'.
Proof.
  intros raw evs.
  assert (render (run (mount initialState) evs).1 = MapView (enrichDataset raw)) as Hview
    by reflexivity.
  split; [exact Hview|].
  exact (proj1 (shown_map_is_enriched evs _ Hview)).
Defined.

(** X12.  Which view [WorldMap] returns: the initializing placeholder
    exactly when not mounted; otherwise the error text exactly when the
    error is a non-empty string, whether or not a dataset is loaded;
    otherwise the loading placeholder exactly when there is no dataset,
    and the map with the dataset when there is one. *)
Theorem render_cases (st : WorldMapState) :
  (render st = Initializing ↔ isMounted st = false)
  ∧ (∀ message, render st = ErrorView message
       ↔ isMounted st = true ∧ error st = Some message ∧ message ≠ "")
  ∧ (render st = LoadingView
       ↔ isMounted st = true ∧ (error st = None ∨ error st = Some "")
         ∧ dataset st = None)
  ∧ (∀ d, render st = MapView d
       ↔ isMounted st = true ∧ (error st = None ∨ error st = Some "")
         ∧ dataset st = Some d).
Proof.
  unfold render.
  destruct (isMounted st), (error st) as [[|c message]|], (dataset st) as [d|]; simpl;
    repeat split; intros; try done; intuition congruence.
Qed.

(** ** The binder on features that carry only one of the two names *)

Section PartlyNamed.

Context `{Engine}.

(** X13.  A feature with a string DWAPARA_NAME and no MODERN_NAME gets
    that name as its whole tooltip: the modern name defaults to it.  A
    feature with no DWAPARA_NAME and a string MODERN_NAME gets
    "Unnamed Dominion", followed by the "Modern: " line unless the modern
    name is itself "Unnamed Dominion". *)
Theorem tooltip_of_partly_named (feature : Feature) :
  (∀ s, prop feature "DWAPARA_NAME" = Some (VStr s) →
        nullish (prop feature "MODERN_NAME") = true →
        tooltipLines feature = [VStr s] ∧ handleEachFeature feature = s)
  ∧ (∀ m, nullish (prop feature "DWAPARA_NAME") = true →
          prop feature "MODERN_NAME" = Some (VStr m) →
          handleEachFeature feature =
            if decide (m = "Unnamed Dominion") then "Unnamed Dominion"
            else "Unnamed Dominion" ++ newline ++ "Modern: " ++ m).
Proof.
  split.
  - intros s Hd Hm. unfold handleEachFeature, tooltipLines.
    rewrite (or_literal_present _ _ _ Hd) by done.
    rewrite (or_literal_nullish _ _ Hm). simpl.
    by rewrite bool_decide_eq_true_2.
  - intros m Hd Hm. unfold handleEachFeature, tooltipLines.
    rewrite (or_literal_nullish _ _ Hd).
    rewrite (or_literal_present _ _ _ Hm) by done.
    cbn [strict_equal]. unfold bool_decide.
    by destruct (decide_rel _ m "Unnamed Dominion"), (decide (m = "Unnamed Dominion")).
Qed.

End PartlyNamed.

(** ** What enrichDataset allocates *)

Module StoreAlloc.
Import Store StoreFacts.

(** A store with two features, the second without geometry and with
    [null] properties. *)
Definition atlas : gmap loc object :=
  {[ 1%positive := Obj {[ "type" := VStr "Point" ]};
     2%positive := Obj {[ "ADMIN" := VStr "India" ]};
     3%positive := Obj {[ "geometry" := VRef 1%positive;
                          "properties" := VRef 2%positive ]};
     5%positive := Obj {[ "properties" := VNull ]};
     6%positive := Arr [VRef 3%positive; VRef 5%positive];
     7%positive := Obj {[ "features" := VRef 6%positive ]} ]}.

Lemma alloc_inv (o : object) (h : gmap loc object) (l : loc) (h' : gmap loc object) :
  alloc o h = Some (l, h') →
  h' = <[l := o]> h ∧ (l ∉ dom h) ∧ h ⊆ h' ∧ size h' = S (size h)
  ∧ dom h' = {[l]} ∪ dom h.
Proof.
  unfold alloc. intros [= <- <-].
  pose proof (is_fresh (dom h)) as Hfresh.
  assert (h !! fresh (dom h) = None) as Hnone by (by apply not_elem_of_dom).
  split; [done|]. split; [done|].
  split; [by apply insert_subseteq|].
  split; [by apply map_size_insert_None|apply dom_insert_L].
Qed.

(** One call of the callback allocates a bag and then a feature object. *)
Lemma enrichFeature_st_inv (e : value) (h : gmap loc object) (e' : value)
    (h' : gmap loc object) :
  enrichFeature_st e h = Some (e', h') →
  ∃ lf' lp fields,
    e' = VRef lf'
    ∧ (lf' ∉ dom h) ∧ (lp ∉ dom h) ∧ lf' ≠ lp
    ∧ dom h' = {[lf'; lp]} ∪ dom h
    ∧ h ⊆ h'
    ∧ size h' = S (S (size h))
    ∧ fields_at h' lf' = Some (<["properties" := VRef lp]> fields).
Proof.
  destruct e as [| | | |lf]; try done.
  unfold enrichFeature_st, bind, get, lift, ret.
  destruct (fields_at h lf) as [fields|]; [|done].
  destruct (view_feature h fields) as [feature|]; [|done].
  destruct (alloc _ h) as [[lp h1]|] eqn:Hlp; [|done].
  destruct (alloc _ h1) as [[lf' h2]|] eqn:Hlf'; [|done].
  intros [= <- <-].
  apply alloc_inv in Hlp as (-> & Hlp_new & Hsub1 & Hsize1 & Hdom1).
  apply alloc_inv in Hlf' as (-> & Hlf'_new & Hsub2 & Hsize2 & Hdom2).
  exists lf', lp, fields.
  split; [done|]. split; [set_solver|]. split; [done|]. split; [set_solver|].
  split; [set_solver|]. split; [by etrans|]. split; [lia|].
  apply fields_at_insert_eq.
Qed.

Lemma Array_map_alloc (elements : list value) :
  ∀ (h : gmap loc object) (elements' : list value) (h' : gmap loc object),
    Array_map enrichFeature_st elements h = Some (elements', h') →
    h ⊆ h'
    ∧ size h' = size h + 2 * length elements
    ∧ ∃ pairs : list (loc * loc),
        elements' = (λ p, VRef p.1) <$> pairs
        ∧ length pairs = length elements
        ∧ Forall (λ p, (p.1 ∉ dom h) ∧ (p.2 ∉ dom h)
                       ∧ p.1 ∈ dom h' ∧ p.2 ∈ dom h'
                       ∧ ∃ fields,
                           fields_at h' p.1 = Some (<["properties" := VRef p.2]> fields))
            pairs
        ∧ (∀ i j p q, i < j → pairs !! i = Some p → pairs !! j = Some q →
             p.1 ≠ q.1 ∧ p.2 ≠ q.2 ∧ p.1 ≠ q.2 ∧ p.2 ≠ q.1).
Proof.
  induction elements as [|e rest IH]; intros h elements' h' Hrun.
  - injection Hrun as <- <-. split; [done|]. split; [simpl; lia|].
    exists []. repeat split; try done; intros i j p q _ Hp; by rewrite lookup_nil in Hp.
  - simpl in Hrun. unfold bind at 1 in Hrun.
    destruct (enrichFeature_st e h) as [[e1 h1]|] eqn:Hhead; [|done].
    unfold bind at 1 in Hrun.
    destruct (Array_map enrichFeature_st rest h1) as [[rest' h2]|] eqn:Htail; [|done].
    injection Hrun as <- <-.
    apply enrichFeature_st_inv in Hhead
      as (lf' & lp & fields & -> & Hlf' & Hlp & Hne & Hdom1 & Hsub1 & Hsize1 & Hfields).
    destruct (IH _ _ _ Htail)
      as (Hsub2 & Hsize2 & pairs & -> & Hlen & Hpairs & Hdistinct).
    pose proof (subseteq_dom _ _ Hsub2) as Hdom2.
    split; [by etrans|]. split; [simpl; lia|].
    exists ((lf', lp) :: pairs).
    split; [done|]. split; [simpl; by rewrite Hlen|]. split.
    + constructor.
      * simpl. split; [done|]. split; [done|].
        split; [set_solver|]. split; [set_solver|].
        exists fields. by eapply fields_at_weaken.
      * eapply Forall_impl; [exact Hpairs|].
        intros p (H1 & H2 & H3 & H4 & H5).
        split; [set_solver|]. split; [set_solver|]. done.
    + intros i j p q Hij Hp Hq.
      destruct j as [|j]; [lia|]. simpl in Hq.
      destruct i as [|i].
      * injection Hp as <-. simpl.
        destruct (proj1 (Forall_forall _ _) Hpairs q
                    (proj2 (list_elem_of_lookup _ _) (ex_intro _ j Hq)))
          as (H1 & H2 & _).
        set_solver.
      * simpl in Hp. apply (Hdistinct i j); [lia|done|done].
Qed.

(** The result of a successful run, read back. *)
Lemma enrichDataset_st_alloc (h : gmap loc object) (collection collection' : loc)
    (h' : gmap loc object) :
  enrichDataset_st collection h = Some (collection', h') →
  ∃ la elements (pairs : list (loc * loc)),
    features_loc h collection = Some la
    ∧ elements_at h la = Some elements
    ∧ length pairs = length elements
    ∧ h ⊆ h'
    ∧ size h' = size h + 2 * length elements + 2
    ∧ (∀ i, feature_loc h' collection' i = fst <$> pairs !! i)
    ∧ (∀ i, properties_loc h' collection' i = snd <$> pairs !! i)
    ∧ (∀ i j p q, i < j → pairs !! i = Some p → pairs !! j = Some q →
         p.1 ≠ q.1 ∧ p.2 ≠ q.2 ∧ p.1 ≠ q.2 ∧ p.2 ≠ q.1).
Proof.
  unfold enrichDataset_st, bind, get, lift.
  destruct (fields_at h collection) as [fields|] eqn:Hfields; [|done].
  destruct (fields !! "features") as [[| | | |la]|] eqn:Hla; try done.
  destruct (elements_at h la) as [elements|] eqn:Helements; [|done].
  destruct (Array_map enrichFeature_st elements h) as [[elements' h1]|] eqn:Hmap; [|done].
  destruct (alloc (Arr elements') h1) as [[la' h2]|] eqn:Hla'; [|done].
  intros Hc'.
  apply Array_map_alloc in Hmap as (Hsub1 & Hsize1 & pairs & -> & Hlen & Hpairs & Hdistinct).
  apply alloc_inv in Hla' as (-> & Hla'_new & Hsub2 & Hsize2 & _).
  apply alloc_inv in Hc' as (-> & Hc'_new & Hsub3 & Hsize3 & _).
  set (h2 := <[la' := Arr ((λ p, VRef p.1) <$> pairs)]> h1) in *.
  set (h3 := <[collection' := Obj (<["features" := VRef la']> fields)]> h2) in *.
  exists la, elements, pairs.
  assert (features_loc h3 collection' = Some la') as Hout.
  { unfold features_loc, collection_member.
    rewrite (fields_at_insert_eq h2 collection' _ : fields_at h3 collection' = _).
    simpl. by rewrite lookup_insert_eq. }
  assert (elements_at h3 la' = Some ((λ p, VRef p.1) <$> pairs)) as Hes.
  { apply (elements_at_weaken h2); [done|].
    unfold elements_at, h2. by rewrite lookup_insert_eq. }
  assert (∀ i, feature_loc h3 collection' i = fst <$> pairs !! i) as Hfeature.
  { intros i. unfold feature_loc. rewrite Hout. simpl. rewrite Hes. simpl.
    rewrite list_lookup_fmap. by destruct (pairs !! i). }
  split; [unfold features_loc, collection_member; rewrite Hfields; simpl; by rewrite Hla|].
  split; [done|]. split; [done|].
  split; [etrans; [done|by etrans]|]. split; [lia|].
  split; [done|]. split; [|done].
  intros i. unfold properties_loc, feature_member. rewrite Hfeature.
  destruct (pairs !! i) as [p|] eqn:Hp; [|done]. simpl.
  destruct (proj1 (Forall_forall _ _) Hpairs p
              (proj2 (list_elem_of_lookup _ _) (ex_intro _ i Hp)))
    as (_ & _ & _ & _ & fields_p & Hfields_p).
  rewrite (fields_at_weaken h1 h3 _ _ (transitivity Hsub2 Hsub3) Hfields_p). simpl.
  by rewrite lookup_insert_eq.
Qed.

(** X14.  Two different positions of the result never hold the same
    object: their feature objects differ, their property bags differ, and
    the feature object of one is not the property bag of the other.  This
    does not depend on the input, which may list one feature twice. *)
Theorem enrichDataset_st_separate_objects (h : gmap loc object)
    (collection collection' : loc) (h' : gmap loc object) (i j : nat) (a b : loc) :
  enrichDataset_st collection h = Some (collection', h') →
  i ≠ j →
  feature_loc h' collection' i = Some a →
  feature_loc h' collection' j = Some b →
  a ≠ b
  ∧ ∃ pa pb,
      properties_loc h' collection' i = Some pa
      ∧ properties_loc h' collection' j = Some pb
      ∧ pa ≠ pb ∧ a ≠ pb ∧ pa ≠ b.
Proof.
  intros Hrun Hij Ha Hb.
  destruct (enrichDataset_st_alloc _ _ _ _ Hrun)
    as (_ & _ & pairs & _ & _ & _ & _ & _ & Hfeature & Hbag & Hdistinct).
  rewrite Hfeature in Ha, Hb. rewrite !Hbag.
  destruct (pairs !! i) as [p|] eqn:Hp; [|done].
  destruct (pairs !! j) as [q|] eqn:Hq; [|done].
  injection Ha as <-. injection Hb as <-. simpl.
  destruct (decide (i < j)) as [Hlt|Hge].
  - destruct (Hdistinct i j p q Hlt Hp Hq) as (H1 & H2 & H3 & H4).
    split; [done|]. by exists p.2, q.2.
  - assert (j < i) as Hlt by lia.
    destruct (Hdistinct j i q p Hlt Hq Hp) as (H1 & H2 & H3 & H4).
    split; [done|]. by exists p.2, q.2.
Qed.

Lemma enrichDataset_st_separate_objects_atlas :
  ∃ collection' h' a b,
    enrichDataset_st 7%positive atlas = Some (collection', h')
    ∧ feature_loc h' collection' 0 = Some a
    ∧ feature_loc h' collection' 1 = Some b
    ∧ a ≠ b.
Proof.
  destruct (enrichDataset_st 7%positive atlas) as [[collection' h']|] eqn:Hrun;
    [|by vm_compute in Hrun].
  destruct (feature_loc h' collection' 0) as [a|] eqn:Ha;
    [|exfalso; vm_compute in Hrun; injection Hrun as <- <-; by vm_compute in Ha].
  destruct (feature_loc h' collection' 1) as [b|] eqn:Hb;
    [|exfalso; vm_compute in Hrun; injection Hrun as <- <-; by vm_compute in Hb].
  exists collection', h', a, b.
  split; [done|]. split; [done|]. split; [done|].
  exact (proj1 (enrichDataset_st_separate_objects atlas 7%positive collection' h'
                  0 1 a b Hrun ltac:(lia) Ha Hb)).
Defined.

(** X15.  Every run that returns leaves each object of the store as it
    was, and adds exactly two objects for each element of the features
    array, and two more: the new array and the new collection. *)
Theorem enrichDataset_st_allocation (h : gmap loc object)
    (collection collection' : loc) (h' : gmap loc object) :
  enrichDataset_st collection h = Some (collection', h') →
  h ⊆ h'
  ∧ ∃ la elements,
      features_loc h collection = Some la
      ∧ elements_at h la = Some elements
      ∧ size h' = size h + 2 * length elements + 2.
Proof.
  intros Hrun.
  destruct (enrichDataset_st_alloc _ _ _ _ Hrun)
    as (la & elements & pairs & Hla & Helements & _ & Hsub & Hsize & _).
  split; [done|]. by exists la, elements.
Qed.

Lemma enrichDataset_st_allocation_atlas :
  ∃ collection' h',
    enrichDataset_st 7%positive atlas = Some (collection', h')
    ∧ atlas ⊆ h'
    ∧ size h' = 12.
Proof.
  destruct (enrichDataset_st 7%positive atlas) as [[collection' h']|] eqn:Hrun;
    [|by vm_compute in Hrun].
  destruct (enrichDataset_st_allocation atlas 7%positive collection' h' Hrun)
    as (Hsub & la & elements & Hla & Helements & Hsize).
  exists collection', h'. split; [done|]. split; [done|].
  vm_compute in Hla. injection Hla as <-.
  vm_compute in Helements. injection Helements as <-.
  rewrite Hsize. vm_compute. reflexivity.
Defined.

Lemma Array_map_null (elements : list value) :
  VNull ∈ elements → ∀ h, Array_map enrichFeature_st elements h = None.
Proof.
  induction elements as [|e rest IH]; intros Hin h.
  - by apply not_elem_of_nil in Hin.
  - simpl. unfold bind at 1.
    destruct (enrichFeature_st e h) as [[e' h1]|] eqn:Hhead; [|done].
    apply elem_of_cons in Hin as [<-|Hin]; [done|].
    unfold bind at 1. by rewrite (IH Hin h1).
Qed.

(** X16.  The inputs on which the source throws a TypeError give no
    result: a collection that is not an object with own members, a
    [features] member that is missing or is not an array, and a features
    array with a [null] element. *)
Theorem enrichDataset_st_throws (h : gmap loc object) (collection : loc) :
  (fields_at h collection = None → enrichDataset_st collection h = None)
  ∧ (∀ fields,
       fields_at h collection = Some fields →
       (∀ la, fields !! "features" = Some (VRef la) → elements_at h la = None) →
       enrichDataset_st collection h = None)
  ∧ (∀ fields la elements,
       fields_at h collection = Some fields →
       fields !! "features" = Some (VRef la) →
       elements_at h la = Some elements →
       VNull ∈ elements →
       enrichDataset_st collection h = None).
Proof.
  unfold enrichDataset_st, bind, get, lift. split; [|split].
  - by intros ->.
  - intros fields -> Hnot.
    destruct (fields !! "features") as [[| | | |la]|]; try done.
    by rewrite (Hnot la eq_refl).
  - intros fields la elements -> -> -> Hnull.
    by rewrite (Array_map_null _ Hnull).
Qed.

End StoreAlloc.
